(** * Soccer odds proxy: the data normalization pipeline

    A shallow embedding of [src/lib/timeHelpers.js], [src/lib/formatHelpers.js],
    [src/lib/oddsService.js] and [src/index.js], and the properties of the
    specification settled against it.

    Conventions of the embedding.
    - A JS number is an integer [Z]: the feed's numeric fields (cents,
      selectors, identifiers) are integers, and on integers below 10^15 in
      magnitude the double arithmetic of the source (sums, products,
      [x / 100] and its printing) is exact. A quotient [x / 100] is kept as
      its numerator, see [hundredths].
    - Text is ASCII, a [string].
    - An array or object carries the identity of its allocation ([ref]):
      [===] and [Set.prototype.has] compare objects by identity.
    - A [throw] is the [Throw] outcome; [try]/[catch] is a match on it.
    - Platform functions whose implementation is not part of the repository
      ([fetch], [JSON.parse], [JSON.stringify], [encodeURIComponent], the
      clock) are variables of the section that uses them. *)

From Stdlib Require Import Ascii.
From stdpp Require Import base numbers option list strings pretty gmap.

Set Warnings "-register-all,-clear-no-such-hyp".
Local Open Scope Z_scope.

(** ** Strings: the part of [String.prototype] the source uses *)

Module JsString.

(** [s.trim()] on ASCII text. *)
Fixpoint trimStart (s : string) : string :=
  match s with
  | String c s' => if Ascii.is_space c then trimStart s' else s
  | EmptyString => EmptyString
  end.

Definition trim (s : string) : string :=
  String.rev (trimStart (String.rev (trimStart s))).

(** [s.split(sep)] for a separator of one character. *)
Fixpoint split (sep : ascii) (s : string) : list string :=
  match s with
  | EmptyString => [EmptyString]
  | String c s' =>
      if decide (c = sep) then EmptyString :: split sep s'
      else match split sep s' with
           | piece :: rest => String c piece :: rest
           | [] => [String c EmptyString]
           end
  end.

(** [s.padStart(2, '0')]. *)
Definition padStart2 (s : string) : string :=
  match String.length s with
  | O => "00"
  | S O => "0" +:+ s
  | _ => s
  end.

(** The quote repair of the fetcher: every single quote (code 39) of the
    text becomes a double quote (code 34). *)
Fixpoint replaceQuotes (s : string) : string :=
  match s with
  | String c s' =>
      String (if decide (c = "039"%char) then "034"%char else c) (replaceQuotes s')
  | EmptyString => EmptyString
  end.

(** [Number(s)] on a decimal numeral: a run of at most 14 digits (the
    empty text reads as 0). [None] is a text outside this fragment, whose
    reading by the platform the embedding does not describe. *)
Fixpoint digitsValue (acc : N) (s : string) : option N :=
  match s with
  | EmptyString => Some acc
  | String c s' =>
      d ← Ascii.is_nat c; digitsValue (10 * acc + N.of_nat d)%N s'
  end.

Definition Number (s : string) : option Z :=
  if decide (String.length s ≤ 14)%nat then Z.of_N <$> digitsValue 0%N s
  else None.

End JsString.

(** ** [src/lib/timeHelpers.js] *)

Module TimeHelpers.
Import JsString.

(** [timeStr.replace(/(AM|PM)/, ' $1')]: a space goes before the leftmost
    occurrence of AM or PM. *)
Fixpoint spacePeriod (s : string) : string :=
  if String.prefix "AM" s || String.prefix "PM" s then String " " s
  else match s with
       | String c s' => String c (spacePeriod s')
       | EmptyString => EmptyString
       end.

(** The arithmetic of the function, on the parsed hour and minute;
    [period] is the second piece of the split, absent when there is none. *)
Definition adjustClock (hour minute : Z) (period : option string) : string :=
  let hour := if decide (period = Some "PM" ∧ hour ≠ 12) then hour + 12 else hour in
  let hour := if decide (period = Some "AM" ∧ hour = 12) then 0 else hour in
  let totalMinutes := hour * 60 + minute in
  let totalMinutes := totalMinutes - 90 in
  let totalMinutes := if decide (totalMinutes < 0) then totalMinutes + 1440 else totalMinutes in
  let newHour := totalMinutes `div` 60 in
  let newMinute := totalMinutes `rem` 60 in
  let newPeriod := if decide (12 ≤ newHour) then "PM" else "AM" in
  let newHour := newHour `rem` 12 in
  let newHour := if decide (newHour = 0) then 12 else newHour in
  pretty newHour +:+ ":" +:+ padStart2 (pretty newMinute) +:+ newPeriod.

Definition subtract90Minutes (timeStr : string) : option string :=
  let normalized := trim (spacePeriod timeStr) in
  let pieces := split " " normalized in
  let time := default EmptyString (pieces !! 0%nat) in
  let period := pieces !! 1%nat in
  match Number <$> split ":" time with
  | hour :: minute :: _ =>
      hour ← hour; minute ← minute; Some (adjustClock hour minute period)
  | _ => Some "NaN:NaNAM"
  end.

End TimeHelpers.

(** ** [src/lib/formatHelpers.js] *)

Module FormatHelpers.

(** [addCacheBusting]: the clock reading is an argument. *)
Definition addCacheBusting (timestamp : Z) (url : string) : string :=
  url +:+ "&_=" +:+ pretty timestamp.

(** The number [numerator / 100]. *)
Record hundredths := Hundredths { numerator : Z }.

Definition div100 (n : Z) : hundredths := Hundredths n.

(** The digits after the point of [r / 100], for [0 <= r < 100], as
    [Number.prototype.toString] prints them: none for 0, no trailing 0. *)
Definition fraction (r : Z) : string :=
  if decide (r = 0) then ""
  else if decide (r `mod` 10 = 0) then "." +:+ pretty (r `div` 10)
  else if decide (r < 10) then ".0" +:+ pretty r
  else "." +:+ pretty r.

(** [String(val)] *)
Definition showHundredths (val : hundredths) : string :=
  let a := Z.abs (numerator val) in
  (if decide (numerator val < 0) then "-" else "")
    +:+ pretty (a `div` 100) +:+ fraction (a `mod` 100).

(** Line 26: the text before the final test. *)
Definition formatted (num1 num2 : Z) : string :=
  let val := div100 num2 in
  pretty num1 +:+
    (if decide (0 < numerator val) then "+" +:+ showHundredths val
     else if decide (numerator val = -1) then ""
     else showHundredths val).

Definition formatOdds (num1 num2 : Z) : string :=
  let formatted := formatted num1 num2 in
  if decide (formatted = "0-0.01") then "" else formatted.

End FormatHelpers.

(** ** Values of the platform, as [JSON.parse] builds them *)

Module Js.

(** The identity of an allocated array or object. *)
Definition ref := N.
Bind Scope N_scope with ref.

Inductive value :=
| Undefined
| Null
| Bool (b : bool)
| Num (n : Z)
| Str (s : string)
| Arr (r : ref) (elems : list value)
| Obj (r : ref) (props : gmap string value).

Global Arguments Arr r%_N elems.
Global Arguments Obj r%_N props.

Global Instance value_inhabited : Inhabited value := populate Undefined.

(** A new, empty array ([[]] in the source). Nothing in the program
    compares its identity, which is left at 0. *)
Definition emptyArray : value := Arr 0%N [].

(** The result of running code that may [throw]. *)
Inductive outcome (A : Type) :=
| Ok (a : A)
| Throw.
Global Arguments Ok {A} a.
Global Arguments Throw {A}.

Global Instance outcome_ret : MRet outcome := λ A a, Ok a.
Global Instance outcome_bind : MBind outcome := λ A B f m,
  match m with Ok a => f a | Throw => Throw end.

(** [ToBoolean]. *)
Definition truthy (v : value) : bool :=
  match v with
  | Undefined | Null => false
  | Bool b => b
  | Num n => negb (bool_decide (n = 0))
  | Str s => negb (bool_decide (s = EmptyString))
  | Arr _ _ | Obj _ _ => true
  end.

Definition isArray (v : value) : bool :=
  match v with Arr _ _ => true | _ => false end.

(** The elements of an array. *)
Definition elements (v : value) : list value :=
  match v with Arr _ elems => elems | _ => [] end.

(** An array or an object: what an assignment [v.league = x] needs in
    strict code (a module is strict); on anything else it throws. *)
Definition isObject (v : value) : bool :=
  match v with Arr _ _ | Obj _ _ => true | _ => false end.

(** The character of [s] at index [k], as a text of length one. *)
Definition charAt (s : string) (k : nat) : value :=
  match String.get k s with
  | Some c => Str (String c EmptyString)
  | None => Undefined
  end.

(** [v[k]] for an integer index [k]: the element of an array, the property
    named by the numeral of an object, the character of a text; a read on
    [undefined] or [null] throws, a number or boolean has no such property. *)
Definition get (v : value) (k : nat) : outcome value :=
  match v with
  | Undefined | Null => Throw
  | Bool _ | Num _ => Ok Undefined
  | Str s => Ok (charAt s k)
  | Arr _ elems => Ok (default Undefined (elems !! k))
  | Obj _ props => Ok (default Undefined (props !! pretty k))
  end.

(** [a === b]. Primitives compare by content (no value of the embedding is
    NaN), arrays and objects by identity. *)
Definition strictEquals (a b : value) : bool :=
  match a, b with
  | Undefined, Undefined | Null, Null => true
  | Bool x, Bool y => bool_decide (x = y)
  | Num x, Num y => bool_decide (x = y)
  | Str x, Str y => bool_decide (x = y)
  | (Arr r _ | Obj r _), (Arr r' _ | Obj r' _) => bool_decide (r = r')
  | _, _ => false
  end.

(** What a [Set] keeps of a member: membership is by SameValueZero, which
    on these values is [===]. *)
Inductive key :=
| KUndefined
| KNull
| KBool (b : bool)
| KNum (n : Z)
| KStr (s : string)
| KRef (r : ref).

Definition identity (v : value) : key :=
  match v with
  | Undefined => KUndefined
  | Null => KNull
  | Bool b => KBool b
  | Num n => KNum n
  | Str s => KStr s
  | Arr r _ | Obj r _ => KRef r
  end.

Global Instance key_eq_dec : EqDecision key.
Proof. solve_decision. Defined.

Definition key_encode (k : key) : unit + unit + bool + Z + string + N :=
  match k with
  | KUndefined => inl (inl (inl (inl (inl ()))))
  | KNull => inl (inl (inl (inl (inr ()))))
  | KBool b => inl (inl (inl (inr b)))
  | KNum n => inl (inl (inr n))
  | KStr s => inl (inr s)
  | KRef r => inr r
  end.

Definition key_decode (x : unit + unit + bool + Z + string + N) : key :=
  match x with
  | inl (inl (inl (inl (inl ())))) => KUndefined
  | inl (inl (inl (inl (inr ())))) => KNull
  | inl (inl (inl (inr b))) => KBool b
  | inl (inl (inr n)) => KNum n
  | inl (inr s) => KStr s
  | inr r => KRef r
  end.

Global Instance key_countable : Countable key.
Proof. apply (inj_countable' key_encode key_decode). by intros []. Defined.

(** [set.has(v)] and [set.add(v)]. *)
Definition has (set : gset key) (v : value) : bool :=
  bool_decide (identity v ∈ set).

Definition add (set : gset key) (v : value) : gset key :=
  {[identity v]} ∪ set.

End Js.

(** ** [src/lib/oddsService.js] *)

Module OddsService.
Import JsString TimeHelpers FormatHelpers Js.

(** Code that may throw and that reads and updates the module-level
    [leagueCollection], which outlives a call: the collection goes in and
    comes out, also when the code throws. *)
Definition M (A : Type) : Type := gset key → outcome A * gset key.

Global Instance M_ret : MRet M := λ A a leagueCollection, (Ok a, leagueCollection).
Global Instance M_bind : MBind M := λ A B f m leagueCollection,
  match m leagueCollection with
  | (Ok a, leagueCollection) => f a leagueCollection
  | (Throw, leagueCollection) => (Throw, leagueCollection)
  end.

Definition lift {A} (o : outcome A) : M A := λ leagueCollection, (o, leagueCollection).

(** [try { body } catch { return handler }]. *)
Definition tryCatch {A} (body : M A) (handler : A) : M A := λ leagueCollection,
  match body leagueCollection with
  | (Ok a, leagueCollection) => (Ok a, leagueCollection)
  | (Throw, leagueCollection) => (Ok handler, leagueCollection)
  end.

(** [list.forEach(callback)], the locals the callback assigns being
    threaded through as [s]. *)
Fixpoint forEach `{MBind F, MRet F} {S A}
    (callback : S → A → F S) (l : list A) (s : S) : F S :=
  match l with
  | [] => mret s
  | x :: l => s ← callback s x; forEach callback l s
  end.

(** *** The raw data fetcher *)

(** What [await fetch(url)] gives: a rejection, or a response with its
    [ok] flag and its body ([None] when reading the body rejects). *)
Inductive fetched :=
| Rejected
| Response (ok : bool) (text : option string).

Definition awaitText (text : option string) : outcome string :=
  match text with Some t => Ok t | None => Throw end.

(** Lines 57-69: the validation of the parsed payload. *)
Definition validate (parsed : value) : value :=
  if truthy parsed && isArray parsed && bool_decide (3 < length (elements parsed))%nat
  then default Undefined (elements parsed !! 3%nat)
  else emptyArray.

Section Platform.
Variable fetch : string → fetched.
Variable JSON_parse : string → option value.
Variable encodeURIComponent : string → string.

Definition fullUrl (apiUrlBase proxyUrl : string) (lid now : Z) : string :=
  proxyUrl +:+ encodeURIComponent (addCacheBusting now (apiUrlBase +:+ pretty lid)).

(** The body of the outer [try] of [fetchAndProcessData]. *)
Definition fetchAndProcessData_try
    (apiUrlBase proxyUrl : string) (lid now : Z) : outcome value :=
  match fetch (fullUrl apiUrlBase proxyUrl lid now) with
  | Rejected => Throw
  | Response ok text =>
      if negb ok then
        errorText ← awaitText text; Throw
      else
        rawText ← awaitText text;
        let cleaned := replaceQuotes rawText in
        match JSON_parse cleaned with
        | None => Ok emptyArray
        | Some parsed => Ok (validate parsed)
        end
  end.

Definition fetchAndProcessData
    (apiUrlBase proxyUrl : string) (lid now : Z) : value :=
  match fetchAndProcessData_try apiUrlBase proxyUrl lid now with
  | Ok data => data
  | Throw => emptyArray
  end.
End Platform.

(** *** The match normalizer *)

(** A match with the [league] the normalizer assigns to it. [nm_fields]
    is the match itself, always an array or an object. The source keeps the
    match by reference and the embedding by copy: the payload is a tree built
    by [JSON.parse], in which no array or object occurs twice. *)
Record NormalizedMatch := {
  nm_fields : value;
  nm_league : value
}.

(** The locals of [fetchOddsData]. *)
Record collected := {
  uniqueMatchIds : gset key;
  finalArr : list NormalizedMatch
}.

(** The parameter pattern [[leagueMeta, matches]]: an array gives its first
    two elements, a text its first two characters, nothing else iterates. *)
Definition destructurePair (item : value) : outcome (value * value) :=
  match item with
  | Arr _ elems =>
      Ok (default Undefined (elems !! 0%nat), default Undefined (elems !! 1%nat))
  | Str s => Ok (charAt s 0, charAt s 1)
  | _ => Throw
  end.

(** [match.league = leagueMeta[1]]. *)
Definition assignLeague (match_ leagueMeta : value) : outcome NormalizedMatch :=
  name ← get leagueMeta 1;
  if isObject match_ then Ok {| nm_fields := match_; nm_league := name |} else Throw.

(** Lines 118-120, on the module-level collection. *)
Definition collectLeague (name : value) : M () := λ leagueCollection,
  (Ok (),
   if negb (has leagueCollection name) then add leagueCollection name
   else leagueCollection).

(** The callback of [matches.forEach]. *)
Definition visitMatch (leagueMeta : value) (st : collected) (match_ : value) : M collected :=
  m ← lift (assignLeague match_ leagueMeta);
  matchId ← lift (get (nm_fields m) 3);
  let st :=
    if negb (has (uniqueMatchIds st) matchId)
    then {| uniqueMatchIds := add (uniqueMatchIds st) matchId;
            finalArr := finalArr st ++ [m] |}
    else st in
  collectLeague (nm_league m);;
  mret st.

(** The callback of [result.forEach]. *)
Definition visitLeague (st : collected) (item : value) : M collected :=
  '(leagueMeta, matches) ← lift (destructurePair item);
  match matches with
  | Arr _ matches => forEach (visitMatch leagueMeta) matches st
  | _ => mret st
  end.

(** [fetchOddsData] from the result of the fetcher on. *)
Definition normalize (result : value) : M (list NormalizedMatch) :=
  match result with
  | Arr _ items =>
      st ← forEach visitLeague items {| uniqueMatchIds := ∅; finalArr := [] |};
      mret (finalArr st)
  | _ => lift Throw
  end.

(** *** The response projector *)

(** The text fields are [None] where the source prints a number the
    embedding does not describe (a component that is not an integer, a
    time whose hour or minute is not a decimal numeral). *)
Record FormattedMatch := {
  league : value;
  time : option string;
  homeTeam : value;
  awayTeam : value;
  isHomeTeamHighlighted : bool;
  isAwayTeamHighlighted : bool;
  odds : option string;
  finalGoalPoints : option string
}.

(** Lines 152-155, on number components. *)
Definition finalGP (e55 e51 : Z) : string :=
  let valG := div100 e51 in
  let formatVal :=
    if decide (0 ≤ numerator valG) then "+" +:+ showHundredths valG
    else showHundredths valG in
  if decide (pretty e55 +:+ formatVal = "0-0.01") then ""
  else pretty e55 +:+ formatVal.

Definition onNumbers (f : Z → Z → string) (a b : value) : option string :=
  match a, b with
  | Num a, Num b => Some (f a b)
  | _, _ => None
  end.

(** The callback of [data.forEach]. *)
Definition projectMatch (formattedJson : list FormattedMatch)
    (eachMatch : NormalizedMatch) : outcome (list FormattedMatch) :=
  let e := nm_fields eachMatch in
  let league :=
    if truthy (nm_league eachMatch) then nm_league eachMatch
    else Str "Unknown League" in
  e51 ← get e 51; e55 ← get e 55;
  let finalGP := onNumbers finalGP e55 e51 in
  e34 ← get e 34; e16 ← get e 16; e20 ← get e 20;
  let highlightedTeamName := if strictEquals e34 (Num 1) then e16 else e20 in
  e8 ← get e 8;
  time ← match e8 with Str timeStr => Ok (subtract90Minutes timeStr) | _ => Throw end;
  e52 ← get e 52; e50 ← get e 50;
  Ok (formattedJson ++ [{|
    league := league;
    time := time;
    homeTeam := e16;
    awayTeam := e20;
    isHomeTeamHighlighted := strictEquals highlightedTeamName e16;
    isAwayTeamHighlighted := strictEquals highlightedTeamName e20;
    odds := onNumbers formatOdds e52 e50;
    finalGoalPoints := finalGP
  |}]).

(** Lines 140-174. *)
Definition project (data : list NormalizedMatch) : outcome (list FormattedMatch) :=
  if decide (length data = 0)%nat then Ok []
  else forEach projectMatch data [].

(** [getFormattedMatchesAsJson] from the result of the fetcher on. *)
Definition formatResult (result : value) : M (list FormattedMatch) :=
  tryCatch (data ← normalize result; lift (project data)) [].

Section Platform.
Variable fetch : string → fetched.
Variable JSON_parse : string → option value.
Variable encodeURIComponent : string → string.

Definition fetchOddsData (apiUrlBase proxyUrl : string) (lid now : Z)
    : M (list NormalizedMatch) :=
  normalize (fetchAndProcessData fetch JSON_parse encodeURIComponent
               apiUrlBase proxyUrl lid now).

Definition getFormattedMatchesAsJson (apiUrlBase proxyUrl : string) (now : Z)
    : M (list FormattedMatch) :=
  tryCatch
    (data ← fetchOddsData apiUrlBase proxyUrl 1 now; lift (project data)) [].
End Platform.

End OddsService.

(** ** [src/index.js] *)

Module Worker.
Import JsString FormatHelpers Js OddsService.

(** The environment of the Worker: each URL is a text, or is not set. *)
Record Env := {
  ODDS_PARENT_URL : option string;
  PROXY_URL : option string
}.

(** What [new Response(body, { headers, status })] is given; the status is
    200 when none is given. *)
Record WorkerResponse := {
  status : Z;
  headers : gmap string string;
  body : option string
}.

Definition corsHeaders : gmap string string :=
  {[ "Access-Control-Allow-Origin" := "*";
     "Access-Control-Allow-Methods" := "GET, POST, OPTIONS";
     "Access-Control-Allow-Headers" := "Content-Type" ]}.

(** [{ 'Content-Type': 'application/json', ...corsHeaders }]: the spread
    comes last and would win on a common key. *)
Definition jsonHeaders : gmap string string :=
  corsHeaders ∪ {[ "Content-Type" := "application/json" ]}.

(** [!url] for a URL of the environment: not set, or the empty text. *)
Definition missing (url : option string) : bool :=
  match url with
  | None => true
  | Some url => bool_decide (url = EmptyString)
  end.

Definition configurationMessage : string :=
  "Required API URLs are not configured in the Worker's environment variables. Please check wrangler.toml or Cloudflare dashboard settings.".

Section Platform.
Variable fetch : string → fetched.
Variable JSON_parse : string → option value.
Variable encodeURIComponent : string → string.
(** [JSON.stringify(oddsData, null, 2)] and [JSON.stringify({ error,
    message })]. *)
Variable stringifyMatches : list FormattedMatch → string.
Variable stringifyError : string → string → string.
(** The message of an error caught at the top level, which the embedding
    does not carry in [Throw]. *)
Variable caughtMessage : string.

(** The [fetch] handler of the default export; [method] is
    [request.method]. *)
Definition fetchHandler (method : string) (env : Env) (now : Z) : M WorkerResponse :=
  if decide (method = "OPTIONS") then
    mret {| status := 200; headers := corsHeaders; body := None |}
  else
    tryCatch
      (let apiUrlBase := ODDS_PARENT_URL env in
       let proxyUrl := PROXY_URL env in
       if missing apiUrlBase || missing proxyUrl then
         mret {| status := 500; headers := jsonHeaders;
                 body := Some (stringifyError "Configuration Error" configurationMessage) |}
       else
         oddsData ← getFormattedMatchesAsJson fetch JSON_parse encodeURIComponent
                      (default EmptyString apiUrlBase) (default EmptyString proxyUrl) now;
         mret {| status := 200; headers := jsonHeaders;
                 body := Some (stringifyMatches oddsData) |})
      {| status := 500; headers := jsonHeaders;
         body := Some (stringifyError "Internal Server Error" caughtMessage) |}.
End Platform.

End Worker.

Import JsString TimeHelpers FormatHelpers Js OddsService Worker.

(** * Notions of the specification *)

(** ** Times of day *)

(** A valid input of the time adjuster: the hour, from 1 to 12, with or
    without a leading zero; the minute, from 0 to 59, on two digits; the
    suffix, with or without a space before it. *)
Definition clockText (leadingZero spaced : bool) (hour minute : Z) (pm : bool)
    : string :=
  (if leadingZero then padStart2 (pretty hour) else pretty hour)
    +:+ ":" +:+ padStart2 (pretty minute)
    +:+ (if spaced then " " else "") +:+ (if pm then "PM" else "AM").

(** The time of day it denotes, in minutes since midnight. *)
Definition minuteOfDay (hour minute : Z) (pm : bool) : Z :=
  (hour `mod` 12 + (if pm then 12 else 0)) * 60 + minute.

(** The 12-hour text of a minute of the day, as the adjuster prints it. *)
Definition textOfMinute (t : Z) : string :=
  clockText false false
    (if decide ((t `div` 60) `mod` 12 = 0) then 12 else (t `div` 60) `mod` 12)
    (t `mod` 60) (bool_decide (12 ≤ t `div` 60)).

(** A time of the 24-hour clock with no suffix: the hour, from 0 to 23, with
    or without a leading zero, and the minute on two digits. *)
Definition clock24Text (leadingZero : bool) (hour minute : Z) : string :=
  (if leadingZero then padStart2 (pretty hour) else pretty hour)
    +:+ ":" +:+ padStart2 (pretty minute).

(** The adjuster applied [n] times, each time to the text the time before
    returned. *)
Definition adjustTimes (n : nat) (timeStr : string) : option string :=
  Nat.iter n (λ text, text ≫= subtract90Minutes) (Some timeStr).


(** ** Decimal numerals *)

(** A text of decimal digits. *)
Fixpoint digits (s : string) : Prop :=
  match s with
  | EmptyString => True
  | String c s => is_Some (Ascii.is_nat c) ∧ digits s
  end.

(** A text that is empty or starts with a character that is no digit. *)
Definition stops (s : string) : Prop :=
  match s with
  | EmptyString => True
  | String c _ => Ascii.is_nat c = None
  end.

(** ** Failures of the fetch *)

(** The ways a fetch fails before a sequence is parsed: the request is
    rejected, the status is not a success, the body cannot be read, the text
    is not JSON, the parsed value is not a sequence. *)
Inductive failure (fetch : string → fetched) (JSON_parse : string → option value)
    (url : string) : Prop :=
| network_error :
    fetch url = Rejected → failure fetch JSON_parse url
| error_status text :
    fetch url = Response false text → failure fetch JSON_parse url
| unreadable_body ok :
    fetch url = Response ok None → failure fetch JSON_parse url
| unparseable_text rawText :
    fetch url = Response true (Some rawText) →
    JSON_parse (replaceQuotes rawText) = None → failure fetch JSON_parse url
| not_a_sequence rawText parsed :
    fetch url = Response true (Some rawText) →
    JSON_parse (replaceQuotes rawText) = Some parsed →
    isArray parsed = false → failure fetch JSON_parse url.

(** ** The traversal and the identifiers *)

(** The identifier of a match: its value at index 3. *)
Definition matchId (m : NormalizedMatch) : value :=
  match get (nm_fields m) 3 with Ok v => v | Throw => Undefined end.

(** The identifier as the set of seen identifiers keeps it. *)
Definition idKey (m : NormalizedMatch) : key := identity (matchId m).

(** The matches of one league, each with the league's name. *)
Definition leagueMatches (item : value) : outcome (list NormalizedMatch) :=
  '(leagueMeta, matches) ← destructurePair item;
  mapM (λ match_, assignLeague match_ leagueMeta) (elements matches).

(** The (league, match) traversal: every match of every league, in the
    order of the payload, duplicates included. *)
Fixpoint traverse (items : list value) : outcome (list NormalizedMatch) :=
  match items with
  | [] => Ok []
  | item :: items =>
      ms ← leagueMatches item; rest ← traverse items; Ok (ms ++ rest)
  end.

Definition traversal (result : value) : outcome (list NormalizedMatch) :=
  match result with Arr _ items => traverse items | _ => Throw end.

(** Lines 109-114 on a match that has its league. *)
Definition pushUnique (st : collected) (m : NormalizedMatch) : collected :=
  if negb (has (uniqueMatchIds st) (matchId m))
  then {| uniqueMatchIds := add (uniqueMatchIds st) (matchId m);
          finalArr := finalArr st ++ [m] |}
  else st.

(** [m] occurs in [l] with no match of the same identifier before it. *)
Definition firstOfItsId (m : NormalizedMatch) (l : list NormalizedMatch) : Prop :=
  ∃ before after,
    l = before ++ m :: after ∧ ∀ x, x ∈ before → idKey x ≠ idKey m.

(** What the locals of the normalizer satisfy once the matches [visited]
    have been seen. *)
Record collects (st : collected) (visited : list NormalizedMatch) : Prop := {
  collects_seen : uniqueMatchIds st = list_to_set (idKey <$> visited);
  collects_kept : uniqueMatchIds st = list_to_set (idKey <$> finalArr st);
  collects_NoDup : NoDup (idKey <$> finalArr st);
  collects_sublist : finalArr st `sublist_of` visited;
  collects_first : ∀ m, m ∈ finalArr st → firstOfItsId m visited
}.

(** ** Payloads the projector can project *)


(** League metadata that can be read at index 1. *)
Definition readable (leagueMeta : value) : bool :=
  match leagueMeta with Undefined | Null => false | _ => true end.






(** ** The league collection and the payloads the normalizer can traverse *)

(** The league names of the matches [visited], as the league collection
    keeps them. *)
Definition leagueNames (visited : list NormalizedMatch) : gset key :=
  list_to_set (identity ∘ nm_league <$> visited).

(** A pair the normalizer gets through: one that iterates, and whose second
    element is no array, or an array of arrays and objects, with metadata
    that can be read unless the array is empty. *)
Definition traversablePair (item : value) : bool :=
  match destructurePair item with
  | Ok (leagueMeta, matches) =>
      negb (isArray matches)
      || ((readable leagueMeta || bool_decide (elements matches = []))
          && forallb isObject (elements matches))
  | Throw => false
  end.

Definition traversable (result : value) : bool :=
  isArray result && forallb traversablePair (elements result).

(** The record projected from the match [m] is [r]. *)
Definition projects (m : NormalizedMatch) (r : FormattedMatch) : Prop :=
  projectMatch [] m = Ok [r].

(** ** Sample data *)

(** A relay that answers every request with one text, and [JSON.parse] on
    that text once its quotes are repaired: a payload of four elements, the
    last a sequence with one league, whose one match stops after its start
    time. *)
Definition relayText : string :=
  "[0,0,0,[[['L1','League'],[[0,0,0,7,0,0,0,0,'2:00PM']]]]]".
Definition relay (url : string) : fetched := Response true (Some relayText).
Definition relayPayload : value :=
  Arr 1 [Num 0; Num 0; Num 0;
         Arr 2 [Arr 3 [Arr 4 [Str "L1"; Str "League"];
                       Arr 5 [Arr 6 [Num 0; Num 0; Num 0; Num 7; Num 0; Num 0;
                                     Num 0; Num 0; Str "2:00PM"]]]]].
Definition relayParse (text : string) : option value :=
  if decide (text = replaceQuotes relayText) then Some relayPayload else None.

(** Two leagues whose match lists share the identifier 7. *)
Definition shortMatch (r : ref) (id : Z) : value :=
  Arr r [Num 0; Num 0; Num 0; Num id].
Definition twoLeagues : value :=
  Arr 1 [Arr 2 [Arr 3 [Str "L1"; Str "Premier"]; Arr 4 [shortMatch 5 7; shortMatch 6 8]];
         Arr 7 [Arr 8 [Str "L2"; Str "Cup"]; Arr 9 [shortMatch 10 7; shortMatch 11 9]]].
Definition twoLeaguesVisited : list NormalizedMatch :=
  [ {| nm_fields := shortMatch 5 7; nm_league := Str "Premier" |};
    {| nm_fields := shortMatch 6 8; nm_league := Str "Premier" |};
    {| nm_fields := shortMatch 10 7; nm_league := Str "Cup" |};
    {| nm_fields := shortMatch 11 9; nm_league := Str "Cup" |} ].

(** A match of the feed with every field the projector reads: odds
    components 1 and 50, goal-point components 3 and 14. *)
Definition feedMatch (r : ref) (id : Z) (timeStr home away : string) (selector : Z)
    : value :=
  Arr r ([Num 0; Num 0; Num 0; Num id] ++ replicate 4 (Num 0) ++ [Str timeStr]
         ++ replicate 7 (Num 0) ++ [Str home] ++ replicate 3 (Num 0) ++ [Str away]
         ++ replicate 13 (Num 0) ++ [Num selector] ++ replicate 15 (Num 0)
         ++ [Num 50; Num 14; Num 1; Num 0; Num 0; Num 3]).

(** Two leagues of the feed whose match lists share the identifier 7. *)
Definition feed : value :=
  Arr 1 [Arr 2 [Arr 3 [Str "L1"; Str "ICELAND PREMIER LEAGUE"];
                Arr 4 [feedMatch 5 7 "2:00PM" "Vikingur" "Valur" 1;
                       feedMatch 6 8 "10:30AM" "Fram" "Breidablik" 0]];
         Arr 7 [Arr 8 [Str "L2"; Str "ICELAND CUP"];
                Arr 9 [feedMatch 10 7 "2:00PM" "Vikingur" "Valur" 1]]].

(** * Properties *)

(** ** Decimal numerals *)

Section Numerals.

Lemma pretty_N_char_digit x : is_Some (Ascii.is_nat (pretty_N_char x)).
Proof. unfold pretty_N_char. repeat case_match; by eexists. Qed.

Lemma pretty_N_go_digits x s : digits s → digits (pretty_N_go x s).
Proof.
  revert s. induction (N.lt_wf_0 x) as [x _ IH]; intros s Hs.
  destruct (decide (x = 0)%N) as [->|Hx]; [done|].
  rewrite pretty_N_go_step by lia.
  apply IH; [apply N.div_lt; lia|].
  split; [apply pretty_N_char_digit|done].
Qed.

Lemma pretty_N_digits (x : N) : digits (pretty x).
Proof.
  unfold pretty, pretty_N. case_decide; [by split; [eexists|]|].
  by apply pretty_N_go_digits.
Qed.

Lemma pretty_N_go_length x s :
  (String.length s ≤ String.length (pretty_N_go x s))%nat.
Proof.
  revert s. induction (N.lt_wf_0 x) as [x _ IH]; intros s.
  destruct (decide (x = 0)%N) as [->|Hx]; [done|].
  rewrite pretty_N_go_step by lia.
  etrans; [|apply IH, N.div_lt; lia]. simpl. lia.
Qed.

Lemma pretty_N_nonempty (x : N) : pretty x ≠ EmptyString.
Proof.
  unfold pretty, pretty_N. case_decide; [done|].
  rewrite pretty_N_go_step by lia. intros Hs.
  pose proof (pretty_N_go_length (x `div` 10)
    (String (pretty_N_char (x `mod` 10)) EmptyString)) as Hlen.
  rewrite Hs in Hlen. simpl in Hlen. lia.
Qed.

(** A numeral of a number that is not negative: digits, at least one. *)
Lemma pretty_Z_nonneg (z : Z) :
  0 ≤ z → ∃ c d, pretty z = String c d ∧ is_Some (Ascii.is_nat c) ∧ digits d.
Proof.
  intros Hz.
  assert (pretty z = pretty (Z.to_N z)) as ->.
  { by destruct z. }
  pose proof (pretty_N_digits (Z.to_N z)) as Hd.
  pose proof (pretty_N_nonempty (Z.to_N z)) as Hne.
  destruct (pretty (Z.to_N z)) as [|c d]; [done|].
  destruct Hd. eauto.
Qed.

Lemma pretty_Z_neg (z : Z) : z < 0 → ∃ d, pretty z = String "-" d.
Proof. intros Hz. destruct z; try lia. by eexists. Qed.

Lemma pretty_Z_nonempty (z : Z) : pretty z ≠ EmptyString.
Proof.
  destruct (decide (0 ≤ z)) as [Hz|Hz].
  - destruct (pretty_Z_nonneg z Hz) as (c & d & -> & _); done.
  - destruct (pretty_Z_neg z) as [d ->]; [lia|done].
Qed.

(** A numeral followed by a text that starts with no digit: where the
    numeral ends is determined. *)
Lemma numeral_then (z : Z) (rest : string) (c : ascii) (rest' : string) :
  0 ≤ z → Ascii.is_nat c = None →
  pretty z +:+ rest = String "0" (String c rest') →
  z = 0 ∧ rest = String c rest'.
Proof.
  intros Hz Hc Heq.
  destruct (pretty_Z_nonneg z Hz) as (c0 & d & Hp & _ & Hd).
  rewrite Hp in Heq. injection Heq as -> Heq.
  destruct d as [|c1 d].
  - split; [|done]. by apply (inj pretty).
  - injection Heq as -> _. destruct Hd as [[? Hd] _]. congruence.
Qed.

(** Digits followed by a text that starts with no digit: where the digits
    end is determined. *)
Lemma digits_then_stops (d1 d2 x y : string) :
  digits d1 → digits d2 → stops x → stops y →
  d1 +:+ x = d2 +:+ y → d1 = d2 ∧ x = y.
Proof.
  revert d2. induction d1 as [|c1 d1 IH]; intros [|c2 d2] Hd1 Hd2 Hx Hy Heq.
  - done.
  - change (x = String c2 (d2 +:+ y)) in Heq. destruct Hd2 as [[? Hc] _].
    subst x. simpl in Hx. congruence.
  - change (String c1 (d1 +:+ x) = y) in Heq. destruct Hd1 as [[? Hc] _].
    subst y. simpl in Hy. congruence.
  - injection Heq as -> Heq. destruct Hd1 as [_ Hd1], Hd2 as [_ Hd2].
    destruct (IH d2 Hd1 Hd2 Hx Hy Heq) as [-> ->]. done.
Qed.

Lemma pretty_Z_digits (z : Z) : 0 ≤ z → digits (pretty z).
Proof. intros Hz. by destruct (pretty_Z_nonneg z Hz) as (c & d & -> & Hc & Hd). Qed.

End Numerals.

(** ** The time adjuster *)

Section TimeAdjuster.

(** Without a space before the suffix, the adjuster returns the time of day
    90 minutes earlier. (By evaluation of the 2880 inputs.) *)
Lemma subtract90Minutes_unspaced leadingZero hour minute pm :
  1 ≤ hour ≤ 12 → 0 ≤ minute ≤ 59 →
  subtract90Minutes (clockText leadingZero false hour minute pm) =
    Some (textOfMinute ((minuteOfDay hour minute pm - 90) `mod` 1440)).
Proof.
  intros Hh Hm.
  assert (Forall (λ h, Forall (λ m, ∀ lz pm : bool,
    subtract90Minutes (clockText lz false h m pm) =
      Some (textOfMinute ((minuteOfDay h m pm - 90) `mod` 1440)))
    (seqZ 0 60)) (seqZ 1 12)) as Hall.
  { apply (bool_decide_unpack _). by vm_compute. }
  rewrite Forall_forall in Hall. specialize (Hall hour).
  rewrite Forall_forall in Hall. apply Hall; apply elem_of_seqZ; lia.
Qed.

(** With a space before the suffix, the adjuster reads the hour as an hour
    of the 24-hour clock, whatever the suffix. *)
Lemma subtract90Minutes_spaced leadingZero hour minute pm :
  1 ≤ hour ≤ 12 → 0 ≤ minute ≤ 59 →
  subtract90Minutes (clockText leadingZero true hour minute pm) =
    Some (textOfMinute ((hour * 60 + minute - 90) `mod` 1440)).
Proof.
  intros Hh Hm.
  assert (Forall (λ h, Forall (λ m, ∀ lz pm : bool,
    subtract90Minutes (clockText lz true h m pm) =
      Some (textOfMinute ((h * 60 + m - 90) `mod` 1440)))
    (seqZ 0 60)) (seqZ 1 12)) as Hall.
  { apply (bool_decide_unpack _). by vm_compute. }
  rewrite Forall_forall in Hall. specialize (Hall hour).
  rewrite Forall_forall in Hall. apply Hall; apply elem_of_seqZ; lia.
Qed.

(** The text of a minute of the day denotes that minute. *)
Lemma textOfMinute_minuteOfDay t :
  0 ≤ t < 1440 →
  ∃ hour minute pm,
    1 ≤ hour ≤ 12 ∧ 0 ≤ minute ≤ 59 ∧
    textOfMinute t = clockText false false hour minute pm ∧
    minuteOfDay hour minute pm = t.
Proof.
  intros Ht. unfold textOfMinute. eexists _, _, _. split_and!; [..|done|].
  - case_decide; [lia|]. pose proof (Z.mod_pos_bound (t `div` 60) 12). lia.
  - case_decide; [lia|]. pose proof (Z.mod_pos_bound (t `div` 60) 12). lia.
  - apply Z.mod_pos_bound. lia.
  - pose proof (Z.mod_pos_bound t 60). lia.
  - unfold minuteOfDay. case_decide; case_bool_decide; Z.div_mod_to_equations; lia.
Qed.

Lemma digits_padStart2 s : digits s → digits (padStart2 s).
Proof.
  unfold padStart2. destruct s as [|c1 [|c2 s]]; simpl; [done| |done].
  intros [Hc _]. split_and!; [by eexists|done..].
Qed.

Lemma padStart2_minute_inj (minute1 minute2 : Z) :
  0 ≤ minute1 ≤ 59 → 0 ≤ minute2 ≤ 59 →
  padStart2 (pretty minute1) = padStart2 (pretty minute2) → minute1 = minute2.
Proof.
  intros Hm1 Hm2.
  assert (Forall (λ m1, Forall (λ m2,
    padStart2 (pretty m1) = padStart2 (pretty m2) → m1 = m2)
    (seqZ 0 60)) (seqZ 0 60)) as Hall.
  { apply (bool_decide_unpack _). by vm_compute. }
  rewrite Forall_forall in Hall. specialize (Hall minute1).
  rewrite Forall_forall in Hall. apply Hall; apply elem_of_seqZ; lia.
Qed.

(** The 12-hour text determines the hour, the minute and the suffix. *)
Lemma clockText_inj hour1 minute1 pm1 hour2 minute2 pm2 :
  0 ≤ hour1 → 0 ≤ hour2 → 0 ≤ minute1 ≤ 59 → 0 ≤ minute2 ≤ 59 →
  clockText false false hour1 minute1 pm1 = clockText false false hour2 minute2 pm2 →
  hour1 = hour2 ∧ minute1 = minute2 ∧ pm1 = pm2.
Proof.
  intros Hh1 Hh2 Hm1 Hm2. unfold clockText. intros Heq.
  apply digits_then_stops in Heq as [Hhour Heq];
    [|by apply pretty_Z_digits..|done|done].
  apply (inj pretty) in Hhour. apply (inj (String.app ":")) in Heq.
  apply digits_then_stops in Heq as [Hminute Heq];
    [|apply digits_padStart2, pretty_Z_digits; lia..|by destruct pm1|by destruct pm2].
  apply padStart2_minute_inj in Hminute; [|done..].
  split_and!; [done..|]. by destruct pm1, pm2.
Qed.

(** The texts of the 1440 minutes of the day are pairwise distinct. *)
Lemma textOfMinute_inj t1 t2 :
  0 ≤ t1 < 1440 → 0 ≤ t2 < 1440 → textOfMinute t1 = textOfMinute t2 → t1 = t2.
Proof.
  intros (h1 & m1 & pm1 & Hh1 & Hm1 & -> & <-)%textOfMinute_minuteOfDay.
  intros (h2 & m2 & pm2 & Hh2 & Hm2 & -> & <-)%textOfMinute_minuteOfDay.
  intros (-> & -> & ->)%clockText_inj; [done|lia..].
Qed.

(** The output format: an hour from 1 to 12, a minute on two digits, the
    suffix with no space, for every valid input, spaced or not. *)
Lemma subtract90Minutes_format leadingZero spaced hour minute pm :
  1 ≤ hour ≤ 12 → 0 ≤ minute ≤ 59 →
  ∃ hour' minute' pm',
    1 ≤ hour' ≤ 12 ∧ 0 ≤ minute' ≤ 59 ∧
    subtract90Minutes (clockText leadingZero spaced hour minute pm) =
      Some (clockText false false hour' minute' pm').
Proof.
  intros Hh Hm.
  assert (∀ t, 0 ≤ t < 1440 → ∃ hour' minute' pm',
            1 ≤ hour' ≤ 12 ∧ 0 ≤ minute' ≤ 59 ∧
            textOfMinute t = clockText false false hour' minute' pm') as Htext.
  { intros t Ht. unfold textOfMinute. eexists _, _, _. split_and!; [..|done].
    - case_decide; [lia|]. pose proof (Z.mod_pos_bound (t `div` 60) 12). lia.
    - case_decide; [lia|]. pose proof (Z.mod_pos_bound (t `div` 60) 12). lia.
    - apply Z.mod_pos_bound. lia.
    - pose proof (Z.mod_pos_bound t 60). lia. }
  destruct spaced.
  - rewrite subtract90Minutes_spaced by done.
    destruct (Htext ((hour * 60 + minute - 90) `mod` 1440))
      as (h' & m' & pm' & ? & ? & ->); [by apply Z.mod_pos_bound|]. eauto 10.
  - rewrite subtract90Minutes_unspaced by done.
    destruct (Htext ((minuteOfDay hour minute pm - 90) `mod` 1440))
      as (h' & m' & pm' & ? & ? & ->); [by apply Z.mod_pos_bound|]. eauto 10.
Qed.

(** Without a space before the suffix the adjuster is injective on the
    times of day. *)
Lemma subtract90Minutes_unspaced_inj
    leadingZero1 hour1 minute1 pm1 leadingZero2 hour2 minute2 pm2 :
  1 ≤ hour1 ≤ 12 → 0 ≤ minute1 ≤ 59 → 1 ≤ hour2 ≤ 12 → 0 ≤ minute2 ≤ 59 →
  subtract90Minutes (clockText leadingZero1 false hour1 minute1 pm1) =
  subtract90Minutes (clockText leadingZero2 false hour2 minute2 pm2) →
  minuteOfDay hour1 minute1 pm1 = minuteOfDay hour2 minute2 pm2.
Proof.
  intros Hh1 Hm1 Hh2 Hm2. rewrite !subtract90Minutes_unspaced by done.
  intros [= Heq]. apply textOfMinute_inj in Heq; [|by apply Z.mod_pos_bound..].
  assert (0 ≤ minuteOfDay hour1 minute1 pm1 < 1440) as Ht1.
  { unfold minuteOfDay. pose proof (Z.mod_pos_bound hour1 12). destruct pm1; lia. }
  assert (0 ≤ minuteOfDay hour2 minute2 pm2 < 1440) as Ht2.
  { unfold minuteOfDay. pose proof (Z.mod_pos_bound hour2 12). destruct pm2; lia. }
  revert Heq Ht1 Ht2. generalize (minuteOfDay hour1 minute1 pm1).
  generalize (minuteOfDay hour2 minute2 pm2). intros t2 t1 Heq Ht1 Ht2.
  Z.div_mod_to_equations. lia.
Qed.

(** With a space before the suffix the adjuster does not tell the morning
    from the afternoon. *)
Lemma subtract90Minutes_spaced_same leadingZero hour minute :
  1 ≤ hour ≤ 12 → 0 ≤ minute ≤ 59 →
  subtract90Minutes (clockText leadingZero true hour minute false) =
  subtract90Minutes (clockText leadingZero true hour minute true) ∧
  minuteOfDay hour minute false ≠ minuteOfDay hour minute true.
Proof.
  intros Hh Hm. rewrite !subtract90Minutes_spaced by done.
  split; [done|]. unfold minuteOfDay. lia.
Qed.

End TimeAdjuster.

(** C7. The three test vectors of the time adjuster: 10:30AM gives 9:00AM,
    12:15AM wraps to 10:45PM of the previous day, 1:00PM gives 11:30AM. *)
Theorem subtract90Minutes_vectors :
  subtract90Minutes "10:30AM" = Some "9:00AM" ∧
  subtract90Minutes "12:15AM" = Some "10:45PM" ∧
  subtract90Minutes "1:00PM" = Some "11:30AM".
Proof. by vm_compute. Qed.

(** C6. With a space before the suffix the period is lost: the inserted
    space and the one already there leave an empty piece between the time and
    the suffix, and the empty piece is what the function takes for the period.
    2:15 in the afternoon and 2:15 in the morning, both valid inputs, have the
    same output, so the function is not injective on the valid inputs; the
    input 02:15 PM of the docstring comes out in the morning too. *)
Theorem subtract90Minutes_spaced_period_lost :
  split " " (trim (spacePeriod "2:15 PM")) = ["2:15"; ""; "PM"] ∧
  subtract90Minutes "2:15 PM" = Some "12:45AM" ∧
  subtract90Minutes "2:15 AM" = Some "12:45AM" ∧
  subtract90Minutes "2:15PM" = Some "12:45PM" ∧
  subtract90Minutes "02:15 PM" = Some "12:45AM".
Proof. by vm_compute. Qed.

(** ** The odds formatter *)

Section FormatOdds.

Lemma app_empty_r (s : string) : s +:+ "" = s.
Proof.
  induction s as [|c s IH]; [done|].
  change (String c s +:+ "") with (String c (s +:+ "")). by rewrite IH.
Qed.

Lemma fraction_hundredth (r : Z) : 0 ≤ r < 100 → fraction r = ".01" → r = 1.
Proof.
  intros Hr.
  assert (Forall (λ r, fraction r = ".01" → r = 1) (seqZ 0 100)) as Hall.
  { apply (bool_decide_unpack _). by vm_compute. }
  rewrite Forall_forall in Hall. apply Hall, elem_of_seqZ. lia.
Qed.

Lemma fraction_start (r : Z) :
  fraction r = EmptyString ∨ ∃ rest, fraction r = String "." rest.
Proof. unfold fraction. repeat case_decide; eauto. Qed.

(** Only the quotient -0.01 is printed as -0.01. *)
Lemma showHundredths_minus_hundredth (n : Z) :
  showHundredths (div100 n) = "-0.01" → n = -1.
Proof.
  unfold showHundredths, div100; simpl. case_decide as Hn.
  - intros [= Heq].
    destruct (fraction_start (Z.abs n `mod` 100)) as [Hf|[rest Hf]].
    + rewrite Hf in Heq.
      destruct (pretty_Z_nonneg (Z.abs n `div` 100)) as (c & d & Hp & _ & Hd);
        [apply Z.div_pos; lia|].
      rewrite Hp in Heq. injection Heq as -> Heq.
      destruct d as [|c d]; [done|]. injection Heq as -> _.
      by destruct Hd as [[? ?] _].
    + pose proof Heq as Heq'. rewrite Hf in Heq'.
      apply numeral_then in Heq' as [Hq Hrest]; [|apply Z.div_pos; lia|done].
      rewrite <-Hf in Hrest. apply fraction_hundredth in Hrest; [|apply Z.mod_pos_bound; lia].
      pose proof (Z.div_mod (Z.abs n) 100). lia.
  - intros Heq. exfalso.
    destruct (pretty_Z_nonneg (Z.abs n `div` 100)) as (c & d & Hp & Hc & _);
      [apply Z.div_pos; lia|].
    rewrite Hp in Heq. injection Heq as -> _. by destruct Hc.
Qed.

(** The text built on line 26 is never the one the last line tests for. *)
Lemma formatted_not_collapsed (num1 num2 : Z) : formatted num1 num2 ≠ "0-0.01".
Proof.
  unfold formatted; simpl. intros Heq.
  destruct (decide (0 ≤ num1)) as [H1|H1].
  - apply numeral_then in Heq as [_ Heq]; [|done..].
    repeat case_decide; [done..|].
    apply showHundredths_minus_hundredth in Heq. lia.
  - destruct (pretty_Z_neg num1) as [d Hd]; [lia|]. by rewrite Hd in Heq.
Qed.


End FormatOdds.

(** C1. The test vectors of the odds formatter, as the code computes them:
    [formatOdds(1, 50)] is 1+0.5; [formatOdds(2, 0)] is 20, the quotient 0
    being printed after the first number; [formatOdds(0, -1)] is 0, the
    quotient -0.01 being left out. *)
Theorem formatOdds_vectors :
  formatOdds 1 50 = "1+0.5" ∧ formatOdds 2 0 = "20" ∧ formatOdds 0 (-1) = "0".
Proof. by vm_compute. Qed.

(** C1, as stated: the second and third vectors of the specification are not
    what the formatter returns. *)
Lemma formatOdds_vectors_as_stated_fail :
  ¬ (formatOdds 1 50 = "1+0.5" ∧ formatOdds 2 0 = "2" ∧ formatOdds 0 (-1) = "").
Proof. by intros (_ & ? & _). Qed.


(** ** The raw data fetcher *)

Section Fetcher.
Variable fetch : string → fetched.
Variable JSON_parse : string → option value.
Variable encodeURIComponent : string → string.
Variables apiUrlBase proxyUrl : string.
Variables lid now : Z.

Local Abbreviation url :=
  (fullUrl encodeURIComponent apiUrlBase proxyUrl lid now).
Local Abbreviation fetched :=
  (fetchAndProcessData fetch JSON_parse encodeURIComponent
     apiUrlBase proxyUrl lid now).

Lemma fetchAndProcessData_parsed rawText parsed :
  fetch url = Response true (Some rawText) →
  JSON_parse (replaceQuotes rawText) = Some parsed →
  fetched = validate parsed.
Proof.
  intros Hf Hp. unfold fetchAndProcessData, fetchAndProcessData_try.
  rewrite Hf. simpl. by rewrite Hp.
Qed.

(** C2. When the parsed payload is a sequence, the fetcher returns the
    empty sequence if it has 3 or fewer elements, and its element at index
    3 if it has more than 3. *)
Theorem fetcher_sequence rawText r elems :
  fetch url = Response true (Some rawText) →
  JSON_parse (replaceQuotes rawText) = Some (Arr r elems) →
  ((length elems ≤ 3)%nat → fetched = emptyArray) ∧
  ((3 < length elems)%nat → elems !! 3%nat = Some fetched).
Proof.
  intros Hf Hp. rewrite (fetchAndProcessData_parsed _ _ Hf Hp).
  unfold validate; simpl. split; intros Hlen.
  - rewrite bool_decide_eq_false_2; [done|lia].
  - rewrite bool_decide_eq_true_2 by done.
    destruct (lookup_lt_is_Some_2 elems 3%nat Hlen) as [x ->]. done.
Qed.

(** C3. Whichever way the fetch fails, the fetcher returns the empty
    sequence; it is a function to values, with no outcome that throws. *)
Theorem fetcher_failure :
  failure fetch JSON_parse url → fetched = emptyArray.
Proof.
  unfold fetchAndProcessData, fetchAndProcessData_try.
  intros [Hf|text Hf|ok Hf|rawText Hf Hp|rawText parsed Hf Hp Harr]; rewrite Hf; simpl.
  - done.
  - by destruct text.
  - by destruct ok.
  - by rewrite Hp.
  - rewrite Hp. unfold validate. rewrite Harr. by rewrite andb_false_r.
Qed.

End Fetcher.

Lemma fetcher_sequence_witness :
  elements relayPayload !! 3%nat =
    Some (fetchAndProcessData relay relayParse id "api?lid=" "relay?url=" 1 0).
Proof.
  apply (fetcher_sequence relay relayParse id "api?lid=" "relay?url=" 1 0
           relayText 1%N (elements relayPayload)).
  - reflexivity.
  - reflexivity.
  - simpl. lia.
Defined.

(** C2, as stated: a payload of exactly four elements is returned at index
    3, not replaced by the empty sequence. *)
Lemma fetcher_four_elements_not_empty :
  ¬ (∀ fetch JSON_parse encodeURIComponent apiUrlBase proxyUrl lid now rawText r elems,
       fetch (fullUrl encodeURIComponent apiUrlBase proxyUrl lid now)
         = Response true (Some rawText) →
       JSON_parse (replaceQuotes rawText) = Some (Arr r elems) →
       (length elems ≤ 4)%nat →
       fetchAndProcessData fetch JSON_parse encodeURIComponent
         apiUrlBase proxyUrl lid now = emptyArray).
Proof.
  intros Hclaim.
  specialize (Hclaim relay relayParse id "api?lid=" "relay?url=" 1 0
                relayText 1%N (elements relayPayload) eq_refl eq_refl).
  simpl in Hclaim. by specialize (Hclaim ltac:(lia)).
Qed.

Lemma fetcher_failure_witness :
  fetchAndProcessData (λ _, Response false (Some "Bad Gateway")) relayParse id
    "api?lid=" "relay?url=" 1 0 = emptyArray.
Proof.
  apply fetcher_failure. apply (error_status _ _ _ (Some "Bad Gateway")).
  reflexivity.
Defined.

(** ** The match normalizer *)

Section Normalizer.

Lemma strictEquals_identity (a b : value) :
  strictEquals a b = true ↔ identity a = identity b.
Proof.
  destruct a, b; simpl; rewrite ?bool_decide_eq_true; naive_solver.
Qed.

Lemma assignLeague_matchId match_ leagueMeta m :
  assignLeague match_ leagueMeta = Ok m → get (nm_fields m) 3 = Ok (matchId m).
Proof.
  unfold assignLeague, matchId. destruct (get leagueMeta 1); [simpl|done].
  destruct (isObject match_) eqn:Hobj; [|done]. intros [= <-]. simpl.
  by destruct match_.
Qed.

Lemma M_bind_unfold {A B} (m : M A) (f : A → M B) leagueCollection :
  (m ≫= f) leagueCollection =
    match m leagueCollection with
    | (Ok a, leagueCollection) => f a leagueCollection
    | (Throw, leagueCollection) => (Throw, leagueCollection)
    end.
Proof. done. Qed.

Lemma forEach_cons {S A} (callback : S → A → M S) x l s leagueCollection :
  forEach callback (x :: l) s leagueCollection =
    match callback s x leagueCollection with
    | (Ok s, leagueCollection) => forEach callback l s leagueCollection
    | (Throw, leagueCollection) => (Throw, leagueCollection)
    end.
Proof. done. Qed.

Lemma visitMatch_pushUnique leagueMeta st match_ leagueCollection :
  ∃ leagueCollection',
    visitMatch leagueMeta st match_ leagueCollection =
      (m ← assignLeague match_ leagueMeta; Ok (pushUnique st m), leagueCollection').
Proof.
  unfold visitMatch, mbind, M_bind, lift.
  destruct (assignLeague match_ leagueMeta) as [m|] eqn:Hm; [|by eexists].
  rewrite (assignLeague_matchId _ _ _ Hm). simpl. by eexists.
Qed.

Lemma forEach_visitMatch leagueMeta matches st leagueCollection :
  ∃ leagueCollection',
    forEach (visitMatch leagueMeta) matches st leagueCollection =
      (ms ← mapM (λ match_, assignLeague match_ leagueMeta) matches;
       Ok (foldl pushUnique st ms), leagueCollection').
Proof.
  revert st leagueCollection.
  induction matches as [|match_ matches IH]; intros st lc; [by eexists|].
  rewrite forEach_cons.
  destruct (visitMatch_pushUnique leagueMeta st match_ lc) as [lc' ->].
  simpl. destruct (assignLeague match_ leagueMeta) as [m|]; simpl; [|by eexists].
  destruct (IH (pushUnique st m) lc') as [lc'' ->].
  destruct (mapM _ matches); by eexists.
Qed.

Lemma visitLeague_leagueMatches st item leagueCollection :
  ∃ leagueCollection',
    visitLeague st item leagueCollection =
      (ms ← leagueMatches item; Ok (foldl pushUnique st ms), leagueCollection').
Proof.
  unfold visitLeague, leagueMatches. rewrite M_bind_unfold. unfold lift.
  destruct (destructurePair item) as [[leagueMeta matches]|]; simpl; [|by eexists].
  destruct matches; try by eexists. apply forEach_visitMatch.
Qed.

Lemma forEach_visitLeague items st leagueCollection :
  ∃ leagueCollection',
    forEach visitLeague items st leagueCollection =
      (ms ← traverse items; Ok (foldl pushUnique st ms), leagueCollection').
Proof.
  revert st leagueCollection.
  induction items as [|item items IH]; intros st lc; [by eexists|].
  rewrite forEach_cons.
  destruct (visitLeague_leagueMatches st item lc) as [lc' ->].
  simpl (traverse _).
  destruct (leagueMatches item) as [ms|]; simpl; [|by eexists].
  destruct (IH (foldl pushUnique st ms) lc') as [lc'' ->].
  destruct (traverse items); simpl; [|by eexists].
  rewrite foldl_app. by eexists.
Qed.

(** The normalizer is the traversal followed by the fold of [pushUnique]. *)
Lemma normalize_traversal result leagueCollection :
  ∃ leagueCollection',
    normalize result leagueCollection =
      (ms ← traversal result;
       Ok (finalArr (foldl pushUnique {| uniqueMatchIds := ∅; finalArr := [] |} ms)),
       leagueCollection').
Proof.
  unfold normalize, traversal.
  destruct result; try by eexists.
  rewrite M_bind_unfold.
  destruct (forEach_visitLeague elems {| uniqueMatchIds := ∅; finalArr := [] |}
              leagueCollection) as [lc' ->].
  destruct (traverse elems); by eexists.
Qed.

Lemma collects_nil : collects {| uniqueMatchIds := ∅; finalArr := [] |} [].
Proof. split; simpl; try done. - constructor. - by intros m ?%elem_of_nil. Qed.

Lemma firstOfItsId_snoc m l x : firstOfItsId m l → firstOfItsId m (l ++ [x]).
Proof.
  intros (before & after & -> & Hbefore).
  exists before, (after ++ [x]). by rewrite <-app_assoc.
Qed.

Lemma collects_pushUnique st visited m :
  collects st visited → collects (pushUnique st m) (visited ++ [m]).
Proof.
  intros [Hseen Hkept Hnodup Hsub Hfirst]. unfold pushUnique, has, add.
  fold (idKey m). case_bool_decide as Hin; simpl.
  - split; try done.
    + rewrite fmap_app, list_to_set_app_L, <-Hseen. set_solver.
    + by apply sublist_inserts_r.
    + intros m' Hm'. by apply firstOfItsId_snoc, Hfirst.
  - split; simpl.
    + rewrite fmap_app, list_to_set_app_L, <-Hseen. set_solver.
    + rewrite fmap_app, list_to_set_app_L, <-Hkept. set_solver.
    + rewrite fmap_app. apply NoDup_app. split_and!; [done| |apply NoDup_singleton].
      intros k Hk ->%list_elem_of_singleton.
      apply Hin. rewrite Hkept. by apply elem_of_list_to_set.
    + by apply sublist_app.
    + intros m' [Hm'| ->%list_elem_of_singleton]%elem_of_app.
      * by apply firstOfItsId_snoc, Hfirst.
      * exists visited, []. split; [done|]. intros x Hx Heq.
        apply Hin. rewrite Hseen, <-Heq.
        apply elem_of_list_to_set, list_elem_of_fmap. eauto.
Qed.

Lemma collects_foldl ms st visited :
  collects st visited → collects (foldl pushUnique st ms) (visited ++ ms).
Proof.
  revert st visited. induction ms as [|m ms IH]; intros st visited Hst.
  - by rewrite app_nil_r.
  - rewrite cons_middle, app_assoc. simpl. by apply IH, collects_pushUnique.
Qed.

Lemma normalize_throws result leagueCollection :
  traversal result = Throw → (normalize result leagueCollection).1 = Throw.
Proof.
  intros Hthrow. destruct (normalize_traversal result leagueCollection) as [lc' ->].
  by rewrite Hthrow.
Qed.

End Normalizer.

(** C4. For every raw input that can be traversed, the normalizer returns,
    and what it returns has no two matches with the same identifier; it keeps
    the order of the traversal; every identifier of the traversal is the
    identifier of a match it returns; and each match it returns is the first
    of the traversal with its identifier. (Identifiers are the same when
    [===] says so. On an input that cannot be traversed the normalizer
    throws and there is no output, see [normalize_throws].) *)
Theorem normalize_first_occurrences result leagueCollection visited :
  traversal result = Ok visited →
  ∃ out,
    (normalize result leagueCollection).1 = Ok out ∧
    NoDup (idKey <$> out) ∧
    out `sublist_of` visited ∧
    (∀ m, m ∈ visited → ∃ m', m' ∈ out ∧ strictEquals (matchId m') (matchId m) = true) ∧
    (∀ m, m ∈ out → firstOfItsId m visited).
Proof.
  intros Hvisited.
  destruct (normalize_traversal result leagueCollection) as [lc' ->].
  rewrite Hvisited. simpl. eexists. split; [done|].
  pose proof (collects_foldl visited _ [] collects_nil) as Hst. simpl in Hst.
  destruct Hst as [Hseen Hkept Hnodup Hsub Hfirst].
  split_and!; try done.
  intros m Hm.
  assert (idKey m ∈ (list_to_set (idKey <$> visited) : gset key)) as Hin.
  { apply elem_of_list_to_set, list_elem_of_fmap. eauto. }
  rewrite <-Hseen, Hkept in Hin.
  apply elem_of_list_to_set, list_elem_of_fmap in Hin as (m' & Heq & Hm').
  exists m'. split; [done|]. by apply strictEquals_identity.
Qed.

Lemma normalize_first_occurrences_witness :
  ∃ out,
    (normalize twoLeagues ∅).1 = Ok out ∧
    NoDup (idKey <$> out) ∧
    out `sublist_of` twoLeaguesVisited ∧
    (∀ m, m ∈ twoLeaguesVisited →
          ∃ m', m' ∈ out ∧ strictEquals (matchId m') (matchId m) = true) ∧
    (∀ m, m ∈ out → firstOfItsId m twoLeaguesVisited).
Proof.
  apply (normalize_first_occurrences twoLeagues ∅ twoLeaguesVisited).
  vm_compute. reflexivity.
Defined.

(** The first match of the shared identifier 7 is kept, the second dropped. *)
Example normalize_twoLeagues :
  (normalize twoLeagues ∅).1 = Ok [
    {| nm_fields := shortMatch 5 7; nm_league := Str "Premier" |};
    {| nm_fields := shortMatch 6 8; nm_league := Str "Premier" |};
    {| nm_fields := shortMatch 11 9; nm_league := Str "Cup" |} ].
Proof. by vm_compute. Qed.

(** ** The response projector *)

Section Projector.



(** One read [e[k]] of the callback: it gives a value or the callback
    throws. *)
Ltac step_get H :=
  match type of H with
  | context [get ?v ?k ≫= _] =>
      let e := fresh "e" in
      destruct (get v k) as [e|] eqn:?; simpl in H; [|done]
  end.

(** The record the projector pushes for a match. *)
Lemma projectMatch_Ok formattedJson eachMatch out :
  projectMatch formattedJson eachMatch = Ok out →
  ∃ e51 e55 e34 e16 e20 timeStr e52 e50,
    get (nm_fields eachMatch) 51 = Ok e51 ∧ get (nm_fields eachMatch) 55 = Ok e55 ∧
    get (nm_fields eachMatch) 34 = Ok e34 ∧ get (nm_fields eachMatch) 16 = Ok e16 ∧
    get (nm_fields eachMatch) 20 = Ok e20 ∧ get (nm_fields eachMatch) 8 = Ok (Str timeStr) ∧
    get (nm_fields eachMatch) 52 = Ok e52 ∧ get (nm_fields eachMatch) 50 = Ok e50 ∧
    out = formattedJson ++ [{|
      league := if truthy (nm_league eachMatch) then nm_league eachMatch
                else Str "Unknown League";
      time := subtract90Minutes timeStr;
      homeTeam := e16;
      awayTeam := e20;
      isHomeTeamHighlighted :=
        strictEquals (if strictEquals e34 (Num 1) then e16 else e20) e16;
      isAwayTeamHighlighted :=
        strictEquals (if strictEquals e34 (Num 1) then e16 else e20) e20;
      odds := onNumbers formatOdds e52 e50;
      finalGoalPoints := onNumbers finalGP e55 e51
    |}].
Proof.
  unfold projectMatch. intros Hout.
  repeat step_get Hout.
  match type of Hout with
  | context [match ?e8 with Undefined => _ | _ => _ end] =>
      destruct e8; simpl in Hout; try done
  end.
  repeat step_get Hout.
  injection Hout as <-. repeat eexists.
Qed.


(** Without a text at index 8 the callback throws. *)
Lemma projectMatch_untimed formattedJson eachMatch :
  (∀ timeStr, get (nm_fields eachMatch) 8 ≠ Ok (Str timeStr)) →
  projectMatch formattedJson eachMatch = Throw.
Proof.
  intros Htime. destruct (projectMatch formattedJson eachMatch) as [out|] eqn:Hout; [|done].
  apply projectMatch_Ok in Hout as (? & ? & ? & ? & ? & timeStr & ? & ? & Hout).
  destruct_and!. by destruct (Htime timeStr).
Qed.

End Projector.



(** ** The pipeline *)

Section Pipeline.

(** What the stages after the fetch return does not depend on the league
    collection they start from. *)
Lemma formatResult_collection result leagueCollection1 leagueCollection2 :
  (formatResult result leagueCollection1).1 =
  (formatResult result leagueCollection2).1.
Proof.
  unfold formatResult, tryCatch. rewrite !M_bind_unfold.
  destruct (normalize_traversal result leagueCollection1) as [lc1 ->].
  destruct (normalize_traversal result leagueCollection2) as [lc2 ->].
  destruct (traversal result) as [visited|]; simpl; [|done].
  unfold lift. by destruct (project _).
Qed.

Lemma getFormattedMatchesAsJson_formatResult
    fetch JSON_parse encodeURIComponent apiUrlBase proxyUrl now :
  getFormattedMatchesAsJson fetch JSON_parse encodeURIComponent
    apiUrlBase proxyUrl now =
  formatResult (fetchAndProcessData fetch JSON_parse encodeURIComponent
                  apiUrlBase proxyUrl 1 now).
Proof. done. Qed.

(** The fetcher reads the clock only to build the address it requests. *)
Lemma fetchAndProcessData_response
    fetch JSON_parse encodeURIComponent apiUrlBase proxyUrl lid now1 now2 :
  fetch (fullUrl encodeURIComponent apiUrlBase proxyUrl lid now1) =
  fetch (fullUrl encodeURIComponent apiUrlBase proxyUrl lid now2) →
  fetchAndProcessData fetch JSON_parse encodeURIComponent apiUrlBase proxyUrl lid now1 =
  fetchAndProcessData fetch JSON_parse encodeURIComponent apiUrlBase proxyUrl lid now2.
Proof.
  intros Hf. unfold fetchAndProcessData, fetchAndProcessData_try. by rewrite Hf.
Qed.

End Pipeline.

(** C8. Two runs of the pipeline that receive the same response from the
    relay return the same sequence, whatever the two clock readings put in
    the request address and whatever the league collection holds when each
    run starts; in particular the stages after the fetch return the same
    sequence on the same raw payload. *)
Theorem pipeline_deterministic
    fetch JSON_parse encodeURIComponent apiUrlBase proxyUrl
    now1 now2 leagueCollection1 leagueCollection2 :
  fetch (fullUrl encodeURIComponent apiUrlBase proxyUrl 1 now1) =
  fetch (fullUrl encodeURIComponent apiUrlBase proxyUrl 1 now2) →
  (getFormattedMatchesAsJson fetch JSON_parse encodeURIComponent
     apiUrlBase proxyUrl now1 leagueCollection1).1 =
  (getFormattedMatchesAsJson fetch JSON_parse encodeURIComponent
     apiUrlBase proxyUrl now2 leagueCollection2).1 ∧
  ∀ result,
    (formatResult result leagueCollection1).1 =
    (formatResult result leagueCollection2).1.
Proof.
  intros Hf. split; [|intros; apply formatResult_collection].
  rewrite !getFormattedMatchesAsJson_formatResult.
  rewrite (fetchAndProcessData_response _ _ _ _ _ _ now1 now2 Hf).
  apply formatResult_collection.
Qed.

Lemma pipeline_deterministic_witness :
  (getFormattedMatchesAsJson relay relayParse id "api?lid=" "relay?url="
     1700000000000 ∅).1 =
  (getFormattedMatchesAsJson relay relayParse id "api?lid=" "relay?url="
     1700000090000 {[KStr "League"]}).1 ∧
  ∀ result,
    (formatResult result ∅).1 = (formatResult result {[KStr "League"]}).1.
Proof.
  apply (pipeline_deterministic relay relayParse id "api?lid=" "relay?url="
           1700000000000 1700000090000 ∅ {[KStr "League"]}).
  reflexivity.
Defined.

(** ** One record per normalized match *)

Section Counting.





End Counting.




(** The end-to-end example of the specification: a first match at 2:00PM
    with the home side highlighted; the third match repeats the identifier
    of the first and is dropped. *)
Example formatResult_feed :
  (formatResult feed ∅).1 = Ok [
    {| league := Str "ICELAND PREMIER LEAGUE"; time := Some "12:30PM";
       homeTeam := Str "Vikingur"; awayTeam := Str "Valur";
       isHomeTeamHighlighted := true; isAwayTeamHighlighted := false;
       odds := Some "1+0.5"; finalGoalPoints := Some "3+0.14" |};
    {| league := Str "ICELAND PREMIER LEAGUE"; time := Some "9:00AM";
       homeTeam := Str "Fram"; awayTeam := Str "Breidablik";
       isHomeTeamHighlighted := false; isAwayTeamHighlighted := true;
       odds := Some "1+0.5"; finalGoalPoints := Some "3+0.14" |} ].
Proof. by vm_compute. Qed.


(** * Further properties *)

(** ** The time adjuster on its valid and invalid inputs *)

Section TimeAdjusterMore.

(** A time of the 24-hour clock with no suffix is read as such. (By
    evaluation of the 2880 inputs.) *)
Lemma subtract90Minutes_clock24 leadingZero hour minute :
  0 ≤ hour ≤ 23 → 0 ≤ minute ≤ 59 →
  subtract90Minutes (clock24Text leadingZero hour minute) =
    Some (textOfMinute ((hour * 60 + minute - 90) `mod` 1440)).
Proof.
  intros Hh Hm.
  assert (Forall (λ h, Forall (λ m, ∀ lz : bool,
    subtract90Minutes (clock24Text lz h m) =
      Some (textOfMinute ((h * 60 + m - 90) `mod` 1440)))
    (seqZ 0 60)) (seqZ 0 24)) as Hall.
  { apply (bool_decide_unpack _). by vm_compute. }
  rewrite Forall_forall in Hall. specialize (Hall hour).
  rewrite Forall_forall in Hall. apply Hall; apply elem_of_seqZ; lia.
Qed.

(** The adjuster on its own outputs. *)
Lemma subtract90Minutes_textOfMinute t :
  0 ≤ t < 1440 →
  subtract90Minutes (textOfMinute t) = Some (textOfMinute ((t - 90) `mod` 1440)).
Proof.
  intros (hour & minute & pm & Hh & Hm & -> & <-)%textOfMinute_minuteOfDay.
  by apply subtract90Minutes_unspaced.
Qed.

Lemma adjustTimes_textOfMinute n t :
  0 ≤ t < 1440 →
  adjustTimes n (textOfMinute t) = Some (textOfMinute ((t - 90 * Z.of_nat n) `mod` 1440)).
Proof.
  intros Ht. induction n as [|n IH].
  - simpl. do 2 f_equal. rewrite Z.mod_small; lia.
  - change (adjustTimes (S n) (textOfMinute t))
      with (adjustTimes n (textOfMinute t) ≫= subtract90Minutes).
    rewrite IH. simpl.
    rewrite subtract90Minutes_textOfMinute by (apply Z.mod_pos_bound; lia).
    do 2 f_equal. rewrite Zminus_mod_idemp_l. f_equal. lia.
Qed.





Lemma split_nonempty sep s : split sep s ≠ [].
Proof. destruct s as [|c s]; simpl; [done|]. case_decide; [done|]. by case_match. Qed.



End TimeAdjusterMore.

(** X1. A valid input with no space before its suffix gives the time of day
    90 minutes earlier (around midnight), printed with an hour from 1 to 12
    without leading zero, the minute on two digits and the suffix. *)
Theorem adjust_unspaced_earlier leadingZero hour minute pm :
  1 ≤ hour ≤ 12 → 0 ≤ minute ≤ 59 →
  ∃ hour' minute' pm',
    1 ≤ hour' ≤ 12 ∧ 0 ≤ minute' ≤ 59 ∧
    subtract90Minutes (clockText leadingZero false hour minute pm) =
      Some (clockText false false hour' minute' pm') ∧
    minuteOfDay hour' minute' pm' = (minuteOfDay hour minute pm - 90) `mod` 1440.
Proof.
  intros Hh Hm. rewrite subtract90Minutes_unspaced by done.
  destruct (textOfMinute_minuteOfDay ((minuteOfDay hour minute pm - 90) `mod` 1440))
    as (h' & m' & pm' & ? & ? & -> & ?); [by apply Z.mod_pos_bound|]. eauto 10.
Qed.

Lemma adjust_unspaced_earlier_witness :
  ∃ hour' minute' pm',
    1 ≤ hour' ≤ 12 ∧ 0 ≤ minute' ≤ 59 ∧
    subtract90Minutes (clockText true false 1 5 false) =
      Some (clockText false false hour' minute' pm') ∧
    minuteOfDay hour' minute' pm' = (minuteOfDay 1 5 false - 90) `mod` 1440.
Proof. apply (adjust_unspaced_earlier true 1 5 false); lia. Defined.

(** X2. Two valid inputs with no space before their suffix that denote
    different times of day have different outputs. *)
Theorem adjust_unspaced_distinct
    leadingZero1 hour1 minute1 pm1 leadingZero2 hour2 minute2 pm2 :
  1 ≤ hour1 ≤ 12 → 0 ≤ minute1 ≤ 59 → 1 ≤ hour2 ≤ 12 → 0 ≤ minute2 ≤ 59 →
  minuteOfDay hour1 minute1 pm1 ≠ minuteOfDay hour2 minute2 pm2 →
  subtract90Minutes (clockText leadingZero1 false hour1 minute1 pm1) ≠
  subtract90Minutes (clockText leadingZero2 false hour2 minute2 pm2).
Proof.
  intros Hh1 Hm1 Hh2 Hm2 Hne Heq. apply Hne.
  by eapply subtract90Minutes_unspaced_inj.
Qed.

Lemma adjust_unspaced_distinct_witness :
  subtract90Minutes (clockText false false 12 15 false) ≠
  subtract90Minutes (clockText true false 12 15 true).
Proof.
  apply (adjust_unspaced_distinct false 12 15 false true 12 15 true); try lia.
  vm_compute. discriminate.
Defined.

(** X3. The adjuster accepts its own outputs: applied [n] times in a row to
    the text of a minute of the day, it returns the text of the minute
    [90 n] earlier, so sixteen applications (24 hours) return the text they
    started from. *)
Theorem adjust_sixteen_times (n : nat) t :
  0 ≤ t < 1440 →
  adjustTimes n (textOfMinute t) = Some (textOfMinute ((t - 90 * Z.of_nat n) `mod` 1440)) ∧
  adjustTimes 16 (textOfMinute t) = Some (textOfMinute t).
Proof.
  intros Ht. split; [by apply adjustTimes_textOfMinute|].
  rewrite adjustTimes_textOfMinute by done. do 2 f_equal.
  change (90 * Z.of_nat 16) with (1 * 1440).
  rewrite Zminus_mod, Z.mod_mul, Z.sub_0_r, Z.mod_mod, Z.mod_small; lia.
Qed.

Lemma adjust_sixteen_times_witness :
  adjustTimes 2 (textOfMinute 15) = Some (textOfMinute ((15 - 90 * Z.of_nat 2) `mod` 1440)) ∧
  adjustTimes 16 (textOfMinute 15) = Some (textOfMinute 15).
Proof. apply (adjust_sixteen_times 2 15). lia. Defined.

(** X4. A time with no suffix is read on the 24-hour clock: the hour, from 0
    to 23, is taken as it is, and the output is the 12-hour text of the time
    90 minutes earlier. *)
Theorem adjust_without_suffix leadingZero hour minute :
  0 ≤ hour ≤ 23 → 0 ≤ minute ≤ 59 →
  ∃ hour' minute' pm',
    1 ≤ hour' ≤ 12 ∧ 0 ≤ minute' ≤ 59 ∧
    subtract90Minutes (clock24Text leadingZero hour minute) =
      Some (clockText false false hour' minute' pm') ∧
    minuteOfDay hour' minute' pm' = (hour * 60 + minute - 90) `mod` 1440.
Proof.
  intros Hh Hm. rewrite subtract90Minutes_clock24 by done.
  destruct (textOfMinute_minuteOfDay ((hour * 60 + minute - 90) `mod` 1440))
    as (h' & m' & pm' & ? & ? & -> & ?); [by apply Z.mod_pos_bound|]. eauto 10.
Qed.

Lemma adjust_without_suffix_witness :
  ∃ hour' minute' pm',
    1 ≤ hour' ≤ 12 ∧ 0 ≤ minute' ≤ 59 ∧
    subtract90Minutes (clock24Text true 14 30) =
      Some (clockText false false hour' minute' pm') ∧
    minuteOfDay hour' minute' pm' = (14 * 60 + 30 - 90) `mod` 1440.
Proof. apply (adjust_without_suffix true 14 30); lia. Defined.

(** X5. With a space before the suffix the suffix is not read: the output is
    the one of the same hour and minute with no suffix at all, read on the
    24-hour clock. *)
Theorem adjust_spaced_as_without_suffix leadingZero hour minute pm :
  1 ≤ hour ≤ 12 → 0 ≤ minute ≤ 59 →
  subtract90Minutes (clockText leadingZero true hour minute pm) =
  subtract90Minutes (clock24Text leadingZero hour minute).
Proof.
  intros Hh Hm.
  rewrite subtract90Minutes_spaced, subtract90Minutes_clock24 by lia. done.
Qed.

Lemma adjust_spaced_as_without_suffix_witness :
  subtract90Minutes (clockText true true 2 15 true) =
  subtract90Minutes (clock24Text true 2 15).
Proof. apply (adjust_spaced_as_without_suffix true 2 15 true); lia. Defined.



(** ** The two formatters and the cache-busting address *)

Section FormattersMore.

Lemma formatOdds_formatted (num1 num2 : Z) : formatOdds num1 num2 = formatted num1 num2.
Proof.
  unfold formatOdds. case_decide as Heq; [|done].
  by apply formatted_not_collapsed in Heq.
Qed.

Lemma app_cancel (s x y : string) : s +:+ x = s +:+ y → x = y.
Proof. apply (inj (String.app s)). Qed.








End FormattersMore.

(** X7. Two different clock readings give two different addresses for the
    same URL, which is what defeats a cache keyed by the address. *)
Theorem addCacheBusting_distinct (timestamp1 timestamp2 : Z) (url : string) :
  timestamp1 ≠ timestamp2 →
  addCacheBusting timestamp1 url ≠ addCacheBusting timestamp2 url.
Proof.
  intros Hne Heq. apply Hne. unfold addCacheBusting in Heq.
  apply app_cancel, (app_cancel "&_=") in Heq. by apply (inj pretty).
Qed.

Lemma addCacheBusting_distinct_witness :
  addCacheBusting 1700000000000 "https://odds.example/data?lid=1" ≠
  addCacheBusting 1700000000001 "https://odds.example/data?lid=1".
Proof. apply addCacheBusting_distinct. lia. Defined.






(** X11. The odds formatter and the goal-points formatter print the same
    text for the same two numbers, except when the second is 0 (printed as
    +0 for the goal points) or -1 (suppressed for the odds). *)
Theorem formatOdds_finalGP_agree (num1 num2 : Z) :
  formatOdds num1 num2 = finalGP num1 num2 ↔ num2 ≠ 0 ∧ num2 ≠ -1.
Proof.
  rewrite formatOdds_formatted.
  pose proof (formatted_not_collapsed num1 num2) as Hnot.
  pose proof (pretty_Z_nonempty num1) as Hne.
  unfold formatted, finalGP, div100 in *. cbn [numerator] in *. split.
  - intros Heq. split; intros ->.
    + change (showHundredths {| numerator := 0 |}) with "0" in *.
      repeat case_decide; try lia.
      * by destruct (pretty num1).
      * by apply app_cancel in Heq.
    + change (showHundredths {| numerator := -1 |}) with "-0.01" in *.
      repeat case_decide; try lia.
      * rewrite app_empty_r in Heq. done.
      * by apply app_cancel in Heq.
  - intros [H0 H1]. repeat case_decide; try lia; done.
Qed.

(** ** The league collection *)

Section LeagueCollection.

Lemma collectLeague_add name leagueCollection :
  collectLeague name leagueCollection = (Ok (), {[identity name]} ∪ leagueCollection).
Proof.
  unfold collectLeague, has, add. f_equal. case_bool_decide; simpl; [|done].
  set_solver.
Qed.

Lemma visitMatch_collection leagueMeta st match_ leagueCollection :
  visitMatch leagueMeta st match_ leagueCollection =
    match assignLeague match_ leagueMeta with
    | Ok m => (Ok (pushUnique st m), {[identity (nm_league m)]} ∪ leagueCollection)
    | Throw => (Throw, leagueCollection)
    end.
Proof.
  unfold visitMatch. rewrite M_bind_unfold. unfold lift.
  destruct (assignLeague match_ leagueMeta) as [m|] eqn:Hm; [|done].
  rewrite M_bind_unfold, (assignLeague_matchId _ _ _ Hm).
  rewrite M_bind_unfold, collectLeague_add. done.
Qed.

Lemma forEach_visitMatch_collection leagueMeta matches st leagueCollection :
  ∃ leagueCollection',
    leagueCollection ⊆ leagueCollection' ∧
    forEach (visitMatch leagueMeta) matches st leagueCollection =
      match mapM (λ match_, assignLeague match_ leagueMeta) matches with
      | Ok ms => (Ok (foldl pushUnique st ms), leagueNames ms ∪ leagueCollection)
      | Throw => (Throw, leagueCollection')
      end.
Proof.
  revert st leagueCollection.
  induction matches as [|match_ matches IH]; intros st lc.
  { exists lc. split; [done|]. simpl. f_equal. unfold leagueNames. set_solver. }
  rewrite forEach_cons, visitMatch_collection. simpl.
  destruct (assignLeague match_ leagueMeta) as [m|]; simpl; [|by exists lc].
  destruct (IH (pushUnique st m) ({[identity (nm_league m)]} ∪ lc)) as (lc' & Hsub & ->).
  exists lc'. split; [set_solver|].
  destruct (mapM _ matches) as [ms|]; simpl; [|done].
  f_equal. unfold leagueNames. rewrite fmap_cons. simpl. set_solver.
Qed.

Lemma visitLeague_collection st item leagueCollection :
  ∃ leagueCollection',
    leagueCollection ⊆ leagueCollection' ∧
    visitLeague st item leagueCollection =
      match leagueMatches item with
      | Ok ms => (Ok (foldl pushUnique st ms), leagueNames ms ∪ leagueCollection)
      | Throw => (Throw, leagueCollection')
      end.
Proof.
  unfold visitLeague, leagueMatches. rewrite M_bind_unfold. unfold lift.
  destruct (destructurePair item) as [[leagueMeta matches]|]; simpl; [|by exists leagueCollection].
  destruct matches; try (exists leagueCollection; split; [done|]; simpl; f_equal;
                         unfold leagueNames; set_solver).
  apply forEach_visitMatch_collection.
Qed.

Lemma leagueNames_app ms1 ms2 : leagueNames (ms1 ++ ms2) = leagueNames ms1 ∪ leagueNames ms2.
Proof. unfold leagueNames. by rewrite fmap_app, list_to_set_app_L. Qed.

Lemma forEach_visitLeague_collection items st leagueCollection :
  ∃ leagueCollection',
    leagueCollection ⊆ leagueCollection' ∧
    forEach visitLeague items st leagueCollection =
      match traverse items with
      | Ok ms => (Ok (foldl pushUnique st ms), leagueNames ms ∪ leagueCollection)
      | Throw => (Throw, leagueCollection')
      end.
Proof.
  revert st leagueCollection.
  induction items as [|item items IH]; intros st lc.
  { exists lc. split; [done|]. simpl. f_equal. unfold leagueNames. set_solver. }
  rewrite forEach_cons. simpl (traverse _).
  destruct (visitLeague_collection st item lc) as (lc1 & Hsub1 & ->).
  destruct (leagueMatches item) as [ms|]; simpl; [|by exists lc1].
  destruct (IH (foldl pushUnique st ms) (leagueNames ms ∪ lc)) as (lc2 & Hsub2 & ->).
  exists lc2. split; [set_solver|].
  destruct (traverse items) as [rest|]; simpl; [|done].
  rewrite foldl_app, leagueNames_app. f_equal. set_solver.
Qed.

(** The normalizer with the league collection it leaves. *)
Lemma normalize_collection result leagueCollection :
  ∃ leagueCollection',
    leagueCollection ⊆ leagueCollection' ∧
    normalize result leagueCollection =
      match traversal result with
      | Ok ms =>
          (Ok (finalArr (foldl pushUnique {| uniqueMatchIds := ∅; finalArr := [] |} ms)),
           leagueNames ms ∪ leagueCollection)
      | Throw => (Throw, leagueCollection')
      end.
Proof.
  unfold normalize, traversal.
  destruct result; try by exists leagueCollection.
  rewrite M_bind_unfold.
  destruct (forEach_visitLeague_collection elems
              {| uniqueMatchIds := ∅; finalArr := [] |} leagueCollection)
    as (lc' & Hsub & ->).
  exists lc'. split; [done|]. by destruct (traverse elems).
Qed.

(** The stages after the fetch change the league collection as the
    normalizer does. *)
Lemma formatResult_collection_after result leagueCollection :
  (formatResult result leagueCollection).2 = (normalize result leagueCollection).2.
Proof.
  unfold formatResult, tryCatch. rewrite M_bind_unfold. unfold lift.
  destruct (normalize result leagueCollection) as [[data|] lc']; simpl; [|done].
  by destruct (project data).
Qed.

End LeagueCollection.

(** X12. The league collection is left with the league names of all the
    matches of the traversal, those of dropped duplicates included, added to
    what it held; it is so whether or not the projector then throws. *)
Theorem leagueCollection_after result leagueCollection visited :
  traversal result = Ok visited →
  (formatResult result leagueCollection).2 = leagueNames visited ∪ leagueCollection.
Proof.
  intros Hvisited. rewrite formatResult_collection_after.
  destruct (normalize_collection result leagueCollection) as (lc' & _ & ->).
  by rewrite Hvisited.
Qed.

Lemma leagueCollection_after_witness :
  (formatResult twoLeagues {[KStr "Serie A"]}).2 =
    leagueNames twoLeaguesVisited ∪ {[KStr "Serie A"]}.
Proof. apply leagueCollection_after. reflexivity. Defined.

(** X13. A run of the pipeline never takes a name out of the league
    collection: what the collection held before the run it holds after it,
    whatever the relay answers, so the collection grows from request to
    request for as long as the module lives. *)
Theorem leagueCollection_grows
    fetch JSON_parse encodeURIComponent apiUrlBase proxyUrl now leagueCollection :
  leagueCollection ⊆
    (getFormattedMatchesAsJson fetch JSON_parse encodeURIComponent
       apiUrlBase proxyUrl now leagueCollection).2.
Proof.
  rewrite getFormattedMatchesAsJson_formatResult, formatResult_collection_after.
  destruct (normalize_collection
              (fetchAndProcessData fetch JSON_parse encodeURIComponent
                 apiUrlBase proxyUrl 1 now) leagueCollection) as (lc' & Hsub & ->).
  destruct (traversal _); simpl; [set_solver|done].
Qed.

(** ** The pipeline on bad payloads *)

Section PipelineMore.

Lemma failure_emptyArray fetch JSON_parse encodeURIComponent apiUrlBase proxyUrl lid now :
  failure fetch JSON_parse (fullUrl encodeURIComponent apiUrlBase proxyUrl lid now) →
  fetchAndProcessData fetch JSON_parse encodeURIComponent apiUrlBase proxyUrl lid now
    = emptyArray.
Proof.
  unfold fetchAndProcessData, fetchAndProcessData_try.
  intros [Hf|text Hf|ok Hf|rawText Hf Hp|rawText parsed Hf Hp Harr]; rewrite Hf; simpl.
  - done.
  - by destruct text.
  - by destruct ok.
  - by rewrite Hp.
  - rewrite Hp. unfold validate. rewrite Harr. by rewrite andb_false_r.
Qed.

Lemma formatResult_not_array result leagueCollection :
  isArray result = false →
  formatResult result leagueCollection = (Ok [], leagueCollection).
Proof. by destruct result. Qed.

(** The callback of the projector appends to the records it is given the
    record it would push on none. *)
Lemma projectMatch_from_nil formattedJson eachMatch :
  projectMatch formattedJson eachMatch =
    (rs ← projectMatch [] eachMatch; Ok (formattedJson ++ rs)).
Proof.
  unfold projectMatch.
  repeat (match goal with
          | |- context [get ?v ?k ≫= _] => destruct (get v k); simpl; [|done]
          | |- context [match ?e8 with Undefined => _ | _ => _ end] =>
              destruct e8; simpl; try done
          end).
  done.
Qed.

Lemma forEach_projectMatch_projects data formattedJson out :
  forEach projectMatch data formattedJson = Ok out →
  ∃ rs, out = formattedJson ++ rs ∧ Forall2 projects data rs.
Proof.
  revert formattedJson. induction data as [|m data IH]; intros acc; simpl.
  - intros [= <-]. exists []. by rewrite app_nil_r.
  - rewrite projectMatch_from_nil.
    destruct (projectMatch [] m) as [rs|] eqn:Hm; simpl; [|done].
    intros (rs' & -> & Hall)%IH.
    destruct (projectMatch_Ok _ _ _ Hm) as (? & ? & ? & ? & ? & ? & ? & ? & Hrs).
    destruct_and!. simplify_eq/=.
    eexists (_ :: rs'). split; [by rewrite <-app_assoc|]. by constructor.
Qed.

Lemma project_projects data out :
  project data = Ok out → Forall2 projects data out.
Proof.
  unfold project. case_decide as Hlen.
  - intros [= <-]. destruct data; [constructor|done].
  - by intros (rs & -> & Hall)%forEach_projectMatch_projects.
Qed.

Lemma formatResult_cases result leagueCollection :
  ∃ out,
    (formatResult result leagueCollection).1 = Ok out ∧
    (out = [] ∨
     ∃ data, (normalize result leagueCollection).1 = Ok data ∧ Forall2 projects data out).
Proof.
  unfold formatResult, tryCatch. rewrite M_bind_unfold. unfold lift.
  destruct (normalize result leagueCollection) as [[data|] lc']; simpl; [|eauto].
  destruct (project data) as [out|] eqn:Hout; simpl; [|eauto].
  exists out. split; [done|]. right. exists data. split; [done|].
  by apply project_projects.
Qed.

Lemma projects_timed m r :
  projects m r → ∃ timeStr, get (nm_fields m) 8 = Ok (Str timeStr).
Proof.
  intros (? & ? & ? & ? & ? & timeStr & ? & ? & H)%projectMatch_Ok.
  destruct_and!. eauto.
Qed.


End PipelineMore.

(** X14. When the fetch fails in any of its ways, the pipeline returns the
    empty sequence and leaves the league collection as it was. *)
Theorem pipeline_failure
    fetch JSON_parse encodeURIComponent apiUrlBase proxyUrl now leagueCollection :
  failure fetch JSON_parse (fullUrl encodeURIComponent apiUrlBase proxyUrl 1 now) →
  getFormattedMatchesAsJson fetch JSON_parse encodeURIComponent
    apiUrlBase proxyUrl now leagueCollection = (Ok [], leagueCollection).
Proof.
  intros Hfail. rewrite getFormattedMatchesAsJson_formatResult.
  by rewrite (failure_emptyArray _ _ _ _ _ _ _ Hfail).
Qed.

Lemma pipeline_failure_witness :
  getFormattedMatchesAsJson (λ _, Rejected) relayParse id "api?lid=" "relay?url="
    1700000000000 {[KStr "League"]} = (Ok [], {[KStr "League"]}).
Proof. apply pipeline_failure. apply network_error. reflexivity. Defined.

(** X15. The fetcher returns the element at index 3 whatever it is: when it
    is not a sequence the fetcher returns it all the same, the normalizer
    throws on it, and the pipeline returns the empty sequence. *)
Theorem pipeline_non_sequence_at_3
    fetch JSON_parse encodeURIComponent apiUrlBase proxyUrl now leagueCollection
    rawText r elems x :
  fetch (fullUrl encodeURIComponent apiUrlBase proxyUrl 1 now) =
    Response true (Some rawText) →
  JSON_parse (replaceQuotes rawText) = Some (Arr r elems) →
  elems !! 3%nat = Some x → isArray x = false →
  fetchAndProcessData fetch JSON_parse encodeURIComponent apiUrlBase proxyUrl 1 now = x ∧
  getFormattedMatchesAsJson fetch JSON_parse encodeURIComponent
    apiUrlBase proxyUrl now leagueCollection = (Ok [], leagueCollection).
Proof.
  intros Hf Hp Hx Harr.
  assert (fetchAndProcessData fetch JSON_parse encodeURIComponent
            apiUrlBase proxyUrl 1 now = x) as Hfetched.
  { rewrite (fetchAndProcessData_parsed _ _ _ _ _ _ _ _ _ Hf Hp).
    unfold validate; simpl. rewrite Hx.
    rewrite bool_decide_eq_true_2; [done|]. by eapply lookup_lt_Some. }
  split; [done|].
  rewrite getFormattedMatchesAsJson_formatResult, Hfetched.
  by apply formatResult_not_array.
Qed.

Lemma pipeline_non_sequence_at_3_witness :
  let parse := λ _ : string, Some (Arr 1 [Num 0; Num 0; Num 0; Str "maintenance"]) in
  fetchAndProcessData relay parse id "api?lid=" "relay?url=" 1 1700000000000
    = Str "maintenance" ∧
  getFormattedMatchesAsJson relay parse id "api?lid=" "relay?url=" 1700000000000 ∅
    = (Ok [], ∅).
Proof.
  intros parse.
  apply (pipeline_non_sequence_at_3 relay parse id "api?lid=" "relay?url="
           1700000000000 ∅ relayText 1%N
           [Num 0; Num 0; Num 0; Str "maintenance"] (Str "maintenance"));
    reflexivity.
Defined.

(** X16. The stages after the fetch never throw, and they return all or
    nothing: either the empty sequence, or one record for each match the
    normalizer kept, in the normalizer's order, each the record projected
    from its match. *)
Theorem pipeline_all_or_nothing result leagueCollection :
  ∃ out,
    (formatResult result leagueCollection).1 = Ok out ∧
    (out = [] ∨
     ∃ data, (normalize result leagueCollection).1 = Ok data ∧ Forall2 projects data out).
Proof. apply formatResult_cases. Qed.

(** X17. One match without a text at index 8 among those the normalizer
    kept costs every record: the pipeline returns the empty sequence. *)
Theorem pipeline_drops_all result leagueCollection data m :
  (normalize result leagueCollection).1 = Ok data →
  m ∈ data →
  (∀ timeStr, get (nm_fields m) 8 ≠ Ok (Str timeStr)) →
  (formatResult result leagueCollection).1 = Ok [].
Proof.
  intros Hdata Hm Htime.
  destruct (formatResult_cases result leagueCollection)
    as (out & Hout & [->|(data' & Hdata' & Hall)]); [done|].
  rewrite Hdata in Hdata'. injection Hdata' as <-.
  apply list_elem_of_lookup in Hm as [i Hi].
  destruct (Forall2_lookup_l _ _ _ _ _ Hall Hi) as (r & _ & Hr).
  apply projects_timed in Hr as [timeStr Hr]. by destruct (Htime timeStr).
Qed.


Lemma pipeline_drops_all_witness : (formatResult twoLeagues ∅).1 = Ok [].
Proof.
  apply (pipeline_drops_all twoLeagues ∅
           [ {| nm_fields := shortMatch 5 7; nm_league := Str "Premier" |};
             {| nm_fields := shortMatch 6 8; nm_league := Str "Premier" |};
             {| nm_fields := shortMatch 11 9; nm_league := Str "Cup" |} ]
           {| nm_fields := shortMatch 5 7; nm_league := Str "Premier" |}).
  - vm_compute. reflexivity.
  - apply list_elem_of_here.
  - intros timeStr. simpl. discriminate.
Defined.

(** ** When the normalizer throws, what it skips, what it keeps *)

Section NormalizerMore.

Lemma mapM_assignLeague_Throw leagueMeta matches :
  mapM (λ match_, assignLeague match_ leagueMeta) matches = Throw ↔
  (readable leagueMeta || bool_decide (matches = [])) && forallb isObject matches = false.
Proof.
  destruct matches as [|match_ matches]; [by rewrite orb_true_r|].
  rewrite bool_decide_eq_false_2, orb_false_r by done.
  destruct (readable leagueMeta) eqn:Hmeta; simpl.
  - assert (∃ name, get leagueMeta 1 = Ok name) as [name Hname]
      by (destruct leagueMeta; try done; by eexists).
    assert (∀ l, mapM (λ match_, assignLeague match_ leagueMeta) l = Throw ↔
                 forallb isObject l = false) as Hall.
    { assert (∀ x, assignLeague x leagueMeta =
                if isObject x then Ok {| nm_fields := x; nm_league := name |}
                else Throw) as Hassign
        by (intros x; unfold assignLeague; by rewrite Hname).
      induction l as [|x l IH]; simpl; [done|].
      rewrite Hassign. destruct (isObject x); simpl; [|done].
      rewrite <-IH. by destruct (mapM _ l). }
    apply (Hall (match_ :: matches)).
  - assert (assignLeague match_ leagueMeta = Throw) as ->
      by (unfold assignLeague; by destruct leagueMeta).
    done.
Qed.

Lemma leagueMatches_Throw item :
  leagueMatches item = Throw ↔ traversablePair item = false.
Proof.
  unfold leagueMatches, traversablePair.
  destruct (destructurePair item) as [[leagueMeta matches]|]; simpl; [|done].
  rewrite mapM_assignLeague_Throw.
  destruct matches; simpl; try done; by rewrite orb_true_r.
Qed.

Lemma traverse_Throw items :
  traverse items = Throw ↔ forallb traversablePair items = false.
Proof.
  induction items as [|item items IH]; simpl; [done|].
  rewrite andb_false_iff, <-IH, <-leagueMatches_Throw.
  destruct (leagueMatches item); simpl; [|naive_solver].
  destruct (traverse items); simpl; naive_solver.
Qed.

Lemma traversal_Throw result :
  traversal result = Throw ↔ traversable result = false.
Proof.
  unfold traversal, traversable. destruct result; simpl; try done.
  apply traverse_Throw.
Qed.

(** A pair whose second element is no array changes nothing. *)
Lemma visitLeague_skip st item leagueMeta matches leagueCollection :
  destructurePair item = Ok (leagueMeta, matches) → isArray matches = false →
  visitLeague st item leagueCollection = (Ok st, leagueCollection).
Proof.
  intros Hpair Harr. unfold visitLeague. rewrite M_bind_unfold. unfold lift.
  rewrite Hpair. by destruct matches.
Qed.

Lemma sublist_same_length {A} (l1 l2 : list A) :
  l1 `sublist_of` l2 → length l1 = length l2 → l1 = l2.
Proof.
  induction 1 as [|x l1 l2 _ IH|x l1 l2 Hsub _]; simpl; intros Hlen.
  - done.
  - f_equal. apply IH. lia.
  - apply sublist_length in Hsub. lia.
Qed.

End NormalizerMore.

(** X19. The normalizer throws exactly on the payloads that are not
    traversable: a result that is not an array, a pair that does not iterate,
    a match that is not an array or object, or league metadata that is null
    or missing where the league has a match. On every other payload it
    returns. *)
Theorem normalize_throws_iff result leagueCollection :
  (normalize result leagueCollection).1 = Throw ↔ traversable result = false.
Proof.
  rewrite <-traversal_Throw.
  destruct (normalize_traversal result leagueCollection) as [lc' ->]. simpl.
  by destruct (traversal result).
Qed.

(** X20. A pair whose second element is not an array is skipped: the
    normalizer returns the same matches and leaves the same league
    collection as on the payload without the pair. *)
Theorem normalize_skips_pair r before item after leagueMeta matches leagueCollection :
  destructurePair item = Ok (leagueMeta, matches) → isArray matches = false →
  normalize (Arr r (before ++ item :: after)) leagueCollection =
  normalize (Arr r (before ++ after)) leagueCollection.
Proof.
  intros Hpair Harr. unfold normalize. rewrite !M_bind_unfold.
  assert (∀ st lc, forEach visitLeague (before ++ item :: after) st lc =
                   forEach visitLeague (before ++ after) st lc) as ->; [|done].
  induction before as [|x before IH]; intros st lc; simpl app.
  - rewrite forEach_cons. by erewrite visitLeague_skip.
  - rewrite !forEach_cons. destruct (visitLeague st x lc) as [[st'|] lc']; [|done].
    apply IH.
Qed.

Lemma normalize_skips_pair_witness :
  normalize (Arr 1 ([Arr 2 [Arr 3 [Str "L1"; Str "Premier"]; Arr 4 [shortMatch 5 7]]]
                    ++ Arr 6 [Arr 7 [Str "L2"; Str "Cup"]; Null]
                    :: [Arr 8 [Arr 9 [Str "L3"; Str "Liga"]; Arr 10 [shortMatch 11 8]]])) ∅ =
  normalize (Arr 1 ([Arr 2 [Arr 3 [Str "L1"; Str "Premier"]; Arr 4 [shortMatch 5 7]]]
                    ++ [Arr 8 [Arr 9 [Str "L3"; Str "Liga"]; Arr 10 [shortMatch 11 8]]])) ∅.
Proof.
  apply (normalize_skips_pair 1 _ _ _ (Arr 7 [Str "L2"; Str "Cup"]) Null); reflexivity.
Defined.

(** X21. The normalizer drops nothing exactly when no identifier occurs
    twice in the traversal: then it returns the traversal itself. *)
Theorem normalize_keeps_all_iff result leagueCollection visited :
  traversal result = Ok visited →
  ((normalize result leagueCollection).1 = Ok visited ↔ NoDup (idKey <$> visited)).
Proof.
  intros Hvisited.
  destruct (normalize_traversal result leagueCollection) as [lc' ->].
  rewrite Hvisited. simpl.
  pose proof (collects_foldl visited _ [] collects_nil) as Hst. simpl in Hst.
  destruct Hst as [Hseen Hkept Hnodup Hsub _].
  split.
  - intros [= Heq]. by rewrite Heq in Hnodup.
  - intros Hvis. f_equal. apply sublist_same_length; [done|].
    rewrite <-(length_fmap idKey), <-(length_fmap idKey visited).
    rewrite <-!(size_list_to_set (C:=gset key)) by done. by rewrite <-Hkept, Hseen.
Qed.

Lemma normalize_keeps_all_iff_witness :
  let result := Arr 1 [Arr 2 [Arr 3 [Str "L1"; Str "Premier"];
                              Arr 4 [shortMatch 5 7; shortMatch 6 8]]] in
  let visited := [ {| nm_fields := shortMatch 5 7; nm_league := Str "Premier" |};
                   {| nm_fields := shortMatch 6 8; nm_league := Str "Premier" |} ] in
  (normalize result ∅).1 = Ok visited ↔ NoDup (idKey <$> visited).
Proof. intros result visited. apply normalize_keeps_all_iff. reflexivity. Defined.

(** ** The Worker's handler *)

Section Handler.
Variable fetch : string → fetched.
Variable JSON_parse : string → option value.
Variable encodeURIComponent : string → string.
Variable stringifyMatches : list FormattedMatch → string.
Variable stringifyError : string → string → string.
Variable caughtMessage : string.

Local Abbreviation handler :=
  (fetchHandler fetch JSON_parse encodeURIComponent
     stringifyMatches stringifyError caughtMessage).

Lemma getFormattedMatchesAsJson_Ok apiUrlBase proxyUrl now leagueCollection :
  ∃ out leagueCollection',
    getFormattedMatchesAsJson fetch JSON_parse encodeURIComponent
      apiUrlBase proxyUrl now leagueCollection = (Ok out, leagueCollection').
Proof.
  unfold getFormattedMatchesAsJson, tryCatch.
  destruct (_ ≫= _) as [[out|] lc']; eauto.
Qed.

(** The three responses the handler can give. *)
Lemma fetchHandler_cases method env now leagueCollection :
  (method = "OPTIONS" ∧
   handler method env now leagueCollection =
     (Ok {| status := 200; headers := corsHeaders; body := None |}, leagueCollection)) ∨
  (method ≠ "OPTIONS" ∧
   missing (ODDS_PARENT_URL env) || missing (PROXY_URL env) = true ∧
   handler method env now leagueCollection =
     (Ok {| status := 500; headers := jsonHeaders;
            body := Some (stringifyError "Configuration Error" configurationMessage) |},
      leagueCollection)) ∨
  (method ≠ "OPTIONS" ∧
   missing (ODDS_PARENT_URL env) || missing (PROXY_URL env) = false ∧
   ∃ apiUrlBase proxyUrl,
     ODDS_PARENT_URL env = Some apiUrlBase ∧ PROXY_URL env = Some proxyUrl ∧
     handler method env now leagueCollection =
       let run := getFormattedMatchesAsJson fetch JSON_parse encodeURIComponent
                    apiUrlBase proxyUrl now leagueCollection in
       (Ok {| status := 200; headers := jsonHeaders;
              body := Some (stringifyMatches
                              (match run.1 with Ok out => out | Throw => [] end)) |},
        run.2)).
Proof.
  unfold fetchHandler. case_decide as Hmethod; [by left|right].
  destruct (missing (ODDS_PARENT_URL env) || missing (PROXY_URL env)) eqn:Hmissing.
  - left. done.
  - right. split_and!; [done..|].
    apply orb_false_elim in Hmissing as [Hapi Hproxy].
    destruct (ODDS_PARENT_URL env) as [apiUrlBase|]; [|done].
    destruct (PROXY_URL env) as [proxyUrl|]; [|done].
    exists apiUrlBase, proxyUrl. split_and!; [done..|].
    unfold tryCatch. rewrite M_bind_unfold. simpl.
    destruct (getFormattedMatchesAsJson_Ok apiUrlBase proxyUrl now leagueCollection)
      as (out & lc' & ->). done.
Qed.

End Handler.

(** X22. The handler never throws and never answers Internal Server Error:
    it answers 200 to a preflight request and to any other request when both
    URLs are configured, whatever the relay does, and 500 with the
    configuration error when a URL is not set or is empty. *)
Theorem fetchHandler_status
    fetch JSON_parse encodeURIComponent stringifyMatches stringifyError caughtMessage
    method env now leagueCollection :
  ∃ response,
    (fetchHandler fetch JSON_parse encodeURIComponent stringifyMatches stringifyError
       caughtMessage method env now leagueCollection).1 = Ok response ∧
    if decide (method = "OPTIONS") then status response = 200 ∧ body response = None
    else if missing (ODDS_PARENT_URL env) || missing (PROXY_URL env) then
      status response = 500 ∧
      body response = Some (stringifyError "Configuration Error" configurationMessage)
    else status response = 200.
Proof.
  destruct (fetchHandler_cases fetch JSON_parse encodeURIComponent stringifyMatches
              stringifyError caughtMessage method env now leagueCollection)
    as [[Hm ->]|[(Hm & Hmissing & ->)|(Hm & Hmissing & api & proxy & _ & _ & ->)]];
    eexists; (split; [done|]); rewrite ?Hmissing; by case_decide.
Qed.

(** X23. Every response of the handler carries the three CORS headers. *)
Theorem fetchHandler_cors
    fetch JSON_parse encodeURIComponent stringifyMatches stringifyError caughtMessage
    method env now leagueCollection :
  ∃ response,
    (fetchHandler fetch JSON_parse encodeURIComponent stringifyMatches stringifyError
       caughtMessage method env now leagueCollection).1 = Ok response ∧
    headers response !! "Access-Control-Allow-Origin" = Some "*" ∧
    headers response !! "Access-Control-Allow-Methods" = Some "GET, POST, OPTIONS" ∧
    headers response !! "Access-Control-Allow-Headers" = Some "Content-Type".
Proof.
  destruct (fetchHandler_cases fetch JSON_parse encodeURIComponent stringifyMatches
              stringifyError caughtMessage method env now leagueCollection)
    as [[Hm ->]|[(Hm & Hmissing & ->)|(Hm & Hmissing & api & proxy & _ & _ & ->)]];
    eexists; (split; [done|]); by vm_compute.
Qed.

(** X24. A request that is a preflight, or that finds a URL not configured,
    is answered without a fetch: the response is the same whatever the relay
    would answer, and the league collection is left as it was. *)
Theorem fetchHandler_without_fetch
    fetch fetch' JSON_parse encodeURIComponent stringifyMatches stringifyError
    caughtMessage method env now leagueCollection :
  method = "OPTIONS" ∨ missing (ODDS_PARENT_URL env) || missing (PROXY_URL env) = true →
  fetchHandler fetch JSON_parse encodeURIComponent stringifyMatches stringifyError
    caughtMessage method env now leagueCollection =
  fetchHandler fetch' JSON_parse encodeURIComponent stringifyMatches stringifyError
    caughtMessage method env now leagueCollection ∧
  (fetchHandler fetch JSON_parse encodeURIComponent stringifyMatches stringifyError
     caughtMessage method env now leagueCollection).2 = leagueCollection.
Proof.
  intros Hcase. unfold fetchHandler. case_decide; [done|].
  destruct Hcase as [? | ->]; done.
Qed.

Lemma fetchHandler_without_fetch_witness :
  let env := {| ODDS_PARENT_URL := Some "https://odds.example/data?lid=";
                PROXY_URL := Some "" |} in
  fetchHandler relay relayParse id (λ _, "[]") (λ _ _, "{}") "" "GET" env 0 ∅ =
  fetchHandler (λ _, Rejected) relayParse id (λ _, "[]") (λ _ _, "{}") "" "GET" env 0 ∅ ∧
  (fetchHandler relay relayParse id (λ _, "[]") (λ _ _, "{}") "" "GET" env 0 ∅).2 = ∅.
Proof.
  intros env. apply fetchHandler_without_fetch. right. reflexivity.
Defined.

(** X25. With both URLs configured, a fetch that fails in any of its ways is
    answered 200 with the empty sequence for body, as an empty feed would
    be, and the league collection is left as it was. *)
Theorem fetchHandler_failure
    fetch JSON_parse encodeURIComponent stringifyMatches stringifyError caughtMessage
    method apiUrlBase proxyUrl now leagueCollection :
  method ≠ "OPTIONS" → apiUrlBase ≠ "" → proxyUrl ≠ "" →
  failure fetch JSON_parse (fullUrl encodeURIComponent apiUrlBase proxyUrl 1 now) →
  fetchHandler fetch JSON_parse encodeURIComponent stringifyMatches stringifyError
    caughtMessage method
    {| ODDS_PARENT_URL := Some apiUrlBase; PROXY_URL := Some proxyUrl |}
    now leagueCollection =
  (Ok {| status := 200; headers := jsonHeaders; body := Some (stringifyMatches []) |},
   leagueCollection).
Proof.
  intros Hmethod Hapi Hproxy Hfail. unfold fetchHandler, missing. simpl.
  rewrite decide_False, !bool_decide_eq_false_2 by done. simpl.
  unfold tryCatch. rewrite M_bind_unfold.
  rewrite getFormattedMatchesAsJson_formatResult.
  by rewrite (failure_emptyArray _ _ _ _ _ _ _ Hfail).
Qed.

Lemma fetchHandler_failure_witness :
  fetchHandler (λ _, Response false (Some "Bad Gateway")) relayParse id
    (λ _, "[]") (λ _ _, "{}") "" "GET"
    {| ODDS_PARENT_URL := Some "https://odds.example/data?lid=";
       PROXY_URL := Some "https://relay.example/exec?url=" |}
    1700000000000 ∅ =
  (Ok {| status := 200; headers := jsonHeaders; body := Some "[]" |}, ∅).
Proof.
  apply (fetchHandler_failure _ relayParse id (λ _, "[]") (λ _ _, "{}") "" "GET");
    try discriminate.
  apply (error_status _ _ _ (Some "Bad Gateway")). reflexivity.
Defined.
